(** * CourseScheduler: the section-assignment solver and the prerequisite graph

    A shallow embedding of [src/course-scheduler/src/CourseScheduler.tsx].

    Modelling conventions.
    - A JavaScript string is a [string] whose characters are the code units
      U+0000..U+00FF.  Among them the white space recognised by [parseInt]
      and [String.prototype.trim] is TAB, LF, VT, FF, CR, SP and NBSP.
    - A JavaScript number is a [Z]: every number the modelled functions
      compute is an integer, and the embedding is exact while magnitudes
      stay below 2^53.  The theorems about the value of a parsed time
      carry that bound as a hypothesis ([exactlyComputed],
      [exactMinutes]).  [NaN] out of [parseInt] is [None].
    - [null] and [undefined] are [None].
    - A [Set<string>] is a duplicate-free list in insertion order, a
      [Map<string, V>] and a [Record<string, V>] are association lists in
      insertion order (module [Js]).  The map [titleToSections], which is
      only ever read by key, is a [gmap].
    - The keys of the solution object are title keys; a title key holds a
      hyphen, so none is an array index and the object enumerates in
      insertion order.
    - The React state of the component is the record [AppState]; an event
      handler is a function from states to states.
    - The loop of the graph traversals takes fuel, one unit per iteration;
      [enoughFuel] computes an amount that always suffices. *)

From Stdlib Require Import ZArith Ascii String.
From stdpp Require Import base list strings gmap pretty sorting relations.

Local Open Scope Z_scope.

(** ** The JavaScript primitives the component relies on *)

Module Js.

  (** *** Strings *)

Definition code (c : ascii) : nat := nat_of_ascii c.

Definition isWhiteSpace (c : ascii) : bool :=
    bool_decide (code c ∈ [9; 10; 11; 12; 13; 32; 160]%nat).

Fixpoint trimStart (s : string) : string :=
    match s with
    | EmptyString => EmptyString
    | String c s' => if isWhiteSpace c then trimStart s' else s
    end.

  (** [trimEnd] drops the trailing white space: a character stays when
      something that is not white space follows it or it is none itself. *)
Fixpoint trimEnd (s : string) : string :=
    match s with
    | EmptyString => EmptyString
    | String c s' =>
        match trimEnd s' with
        | EmptyString => if isWhiteSpace c then EmptyString else String c EmptyString
        | r => String c r
        end
    end.

Definition trim (s : string) : string := trimEnd (trimStart s).

(** [s.replace(/\s+/g, "")] *)
Fixpoint removeWhiteSpace (s : string) : string :=
  match s with
  | EmptyString => EmptyString
  | String c s' => if isWhiteSpace c then removeWhiteSpace s' else String c (removeWhiteSpace s')
  end.

  (** [t.slice(0, -2)] and [t.slice(-2)]. *)
Definition slice_front2 (t : string) : string :=
    String.substring 0 (String.length t - 2) t.
Definition slice_last2 (t : string) : string :=
    String.substring (String.length t - 2) 2 t.

  (** *** [parseInt(s, 10)] *)

Definition digitValue (c : ascii) : option Z :=
    if bool_decide (48 ≤ code c ≤ 57)%nat then Some (Z.of_nat (code c) - 48) else None.

  (** The longest prefix of decimal digits, read left to right; [seen]
      records that at least one digit was consumed. *)
Fixpoint digits (s : string) (acc : Z) (seen : bool) : option Z :=
    match s with
    | EmptyString => if seen then Some acc else None
    | String c s' =>
        match digitValue c with
        | Some d => digits s' (acc * 10 + d) true
        | None => if seen then Some acc else None
        end
    end.

Definition parseInt (s : string) : option Z :=
    match trimStart s with
    | String "-"%char r => Z.opp <$> digits r 0 false
    | String "+"%char r => digits r 0 false
    | r => digits r 0 false
    end.

  (** *** [Set<string>]: insertion ordered, no duplicates *)

Definition set_has (s : list string) (x : string) : bool := bool_decide (x ∈ s).

Definition set_add (s : list string) (x : string) : list string :=
    if set_has s x then s else s ++ [x].

Definition set_delete (s : list string) (x : string) : list string :=
    filter (λ y, y ≠ x) s.

  (** [new Set(iterable)] *)
Definition set_of (l : list string) : list string := foldl set_add [] l.

  (** *** [Map<string, V>] and plain objects used as records *)

Section Assoc.
Context {V : Type}.

Fixpoint get (m : list (string * V)) (k : string) : option V :=
      match m with
      | [] => None
      | (k', v) :: m' => if decide (k' = k) then Some v else get m' k
      end.

Definition has (m : list (string * V)) (k : string) : bool :=
      bool_decide (is_Some (get m k)).

    (** An existing key keeps its position, a new key goes last. *)
Fixpoint set (m : list (string * V)) (k : string) (v : V) : list (string * V) :=
      match m with
      | [] => [(k, v)]
      | (k', v') :: m' =>
          if decide (k' = k) then (k, v) :: m' else (k', v') :: set m' k v
      end.

    (** [delete obj[k]] *)
Definition remove (m : list (string * V)) (k : string) : list (string * V) :=
      filter (λ kv, kv.1 ≠ k) m.

    (** [Object.values(obj)] *)
Definition values (m : list (string * V)) : list V := m.*2.

Definition keys (m : list (string * V)) : list string := m.*1.
End Assoc.

  (** *** [Array.prototype.sort(cmp)]

      The language requires the sort to be stable; for a consistent
      comparator every stable sort returns the same array, which is the one
      that insertion from the right computes. *)
Section Sort.
Context {A : Type} (cmp : A → A → Z).

Fixpoint sort_insert (x : A) (l : list A) : list A :=
      match l with
      | [] => [x]
      | y :: l' => if decide (cmp x y ≤ 0) then x :: l else y :: sort_insert x l'
      end.

Definition sort (l : list A) : list A := foldr sort_insert [] l.
End Sort.

End Js.

(** ** Types *)

Record MeetingTime := {
  beginTime : option string;
  endTime : option string;
  monday : bool; tuesday : bool; wednesday : bool; thursday : bool; friday : bool;
  buildingDescription : option string;
  room : option string;
  meetingScheduleType : option string
}.

Record MeetingRecord := { meetingTime : option MeetingTime }.

(** The fields of a catalogue record that the solver, the indexer and the
    conflict detector read. *)
Record CourseRecord := {
  id : Z;
  courseReferenceNumber : string;
  courseNumber : string;
  subject : string;
  courseTitle : string;
  openSection : bool;
  maximumEnrollment : option Z;
  seatsAvailable : option Z;
  meetingsFaculty : list MeetingRecord
}.

Inductive Day := Monday | Tuesday | Wednesday | Thursday | Friday.

Global Instance Day_eq_dec : EqDecision Day.
Proof. solve_decision. Defined.

Definition DAYS : list Day := [Monday; Tuesday; Wednesday; Thursday; Friday].

(** [mt[d]] *)
Definition dayFlag (mt : MeetingTime) (d : Day) : bool :=
  match d with
  | Monday => monday mt
  | Tuesday => tuesday mt
  | Wednesday => wednesday mt
  | Thursday => thursday mt
  | Friday => friday mt
  end.

Record Block := {
  day : Day;
  start : Z;
  end_ : Z;
  title : string;
  crn : string;
  block_room : option string;
  building : option string;
  type_ : option string;
  open : bool
}.

(** ** Helpers *)

Definition timeStrToMinutes (t : option string) : option Z :=
  match t with
  | None => None
  | Some t =>
      if bool_decide (String.length t < 3)%nat then None
      else
        match Js.parseInt (Js.slice_front2 t), Js.parseInt (Js.slice_last2 t) with
        | Some hh, Some mm => Some (hh * 60 + mm)
        | _, _ => None
        end
  end.

Definition mkBlock (rec : CourseRecord) (mt : MeetingTime) (s e : Z) (d : Day) : Block :=
  {| day := d; start := s; end_ := e;
     title := courseTitle rec;
     crn := courseReferenceNumber rec;
     block_room := room mt;
     building := buildingDescription mt;
     type_ := meetingScheduleType mt;
     open := openSection rec |}.

(** The blocks one meeting entry pushes: none when the entry has no
    [meetingTime] or one of its times does not parse. *)
Definition blocksForMeeting (rec : CourseRecord) (m : MeetingRecord) : list Block :=
  match meetingTime m with
  | None => []
  | Some mt =>
      match timeStrToMinutes (beginTime mt), timeStrToMinutes (endTime mt) with
      | Some s, Some e => mkBlock rec mt s e <$> filter (λ d, dayFlag mt d = true) DAYS
      | _, _ => []
      end
  end.

Definition blocksForSection (rec : CourseRecord) : list Block :=
  meetingsFaculty rec ≫= blocksForMeeting rec.

Definition overlap (a b : Block) : bool :=
  bool_decide (day a = day b) && bool_decide (start a < end_ b) && bool_decide (start b < end_ a).

(** [false] at the first overlapping pair, [true] when there is none. *)
Definition isCompatible (chosen candidate : list Block) : bool :=
  forallb (λ b, forallb (λ c, negb (overlap b c)) chosen) candidate.

(** ** Derived data: title keys and candidate lists *)

Definition titleKey (r : CourseRecord) : string :=
  Js.trim (subject r +:+ courseNumber r +:+ " - " +:+ courseTitle r).

Section Titles.
  (** [String.prototype.localeCompare] belongs to the host's collation
      tables; the title list is modelled for any such comparison. *)
Variable localeCompare : string → string → Z.

Definition titles (records : list CourseRecord) (includeClosed : bool) : list string :=
    let list := titleKey <$> filter (λ r, includeClosed || openSection r = true) records in
    Js.sort localeCompare (Js.set_of list).
End Titles.

(** [Math.min(...starts)] on a non-empty array, 99999 on an empty one. *)
Definition earliestStart (r : CourseRecord) : Z :=
  match start <$> blocksForSection r with
  | [] => 99999
  | s :: starts => foldl Z.min s starts
  end.

(** The comparator handed to [arr.sort]: prefer open, more seats, earlier
    start. *)
Definition compareSections (a b : CourseRecord) : Z :=
  if bool_decide (openSection a ≠ openSection b) then
    (if openSection a then -1 else 1)
  else
    let sa := default (-1) (seatsAvailable a) in
    let sb := default (-1) (seatsAvailable b) in
    if bool_decide (sb ≠ sa) then sb - sa
    else earliestStart a - earliestStart b.

Definition groupByTitle (includeClosed : bool)
    (map : gmap string (list CourseRecord)) (r : CourseRecord)
    : gmap string (list CourseRecord) :=
  if negb includeClosed && negb (openSection r) then map
  else <[titleKey r := default [] (map !! titleKey r) ++ [r]]> map.

Definition titleToSections (records : list CourseRecord) (includeClosed : bool)
    : gmap string (list CourseRecord) :=
  Js.sort compareSections <$> foldl (groupByTitle includeClosed) ∅ records.

(** [titleToSections.get(t) || []] *)
Definition candidatesOf (records : list CourseRecord) (includeClosed : bool)
    (t : string) : list CourseRecord :=
  default [] (titleToSections records includeClosed !! t).

(** ** Component state *)

Abbreviation Assignment := (list (string * CourseRecord)).

(** The part of the component state that loading, the solver and the
    override read and write. *)
Record AppState := {
  records : list CourseRecord;
  includeClosed : bool;
  selectedTitles : list string;
  solution : option Assignment;
  status : string;
  conflictCRNs : list string
}.

Inductive RawJson :=
  | RawArray (items : list CourseRecord)
      (** a bare array *)
  | RawObject (data : option (list CourseRecord))
      (** an object; [data] is its [data] field when that is an array *)
  | RawScalar.
      (** [null], a number, a string or a boolean *)

Definition rawRecords (raw : RawJson) : list CourseRecord :=
  match raw with
  | RawObject (Some arr) => arr
  | RawArray arr => arr
  | _ => []
  end.

Definition statusNoRecords : string := "JSON parsed, but no records found.".

Definition statusLoaded (n : nat) : string :=
  "Loaded " +:+ pretty n +:+ " sections from JSON".

Definition ingestJson (st : AppState) (raw : RawJson) : AppState :=
  let arr := rawRecords raw in
  if bool_decide (length arr = 0%nat) then
    {| records := records st; includeClosed := includeClosed st;
       selectedTitles := selectedTitles st; solution := solution st;
       status := statusNoRecords; conflictCRNs := conflictCRNs st |}
  else
    {| records := arr; includeClosed := includeClosed st;
       selectedTitles := selectedTitles st; solution := None;
       status := statusLoaded (length arr); conflictCRNs := [] |}.

(** ** Conflict detector *)

(** The inner loop [for (j = i + 1; ...)] for the block at [i]. *)
Fixpoint conflictsOfBlock (bi : Block) (later : list Block) (conflictSet : list string)
    : list string :=
  match later with
  | [] => conflictSet
  | bj :: later' =>
      conflictsOfBlock bi later'
        (if overlap bi bj then Js.set_add (Js.set_add conflictSet (crn bi)) (crn bj)
         else conflictSet)
  end.

(** The outer loop [for (i = 0; ...)]. *)
Fixpoint conflictsOfBlocks (blocks : list Block) (conflictSet : list string) : list string :=
  match blocks with
  | [] => conflictSet
  | bi :: later => conflictsOfBlocks later (conflictsOfBlock bi later conflictSet)
  end.

Definition flattenedBlocks (sol : Assignment) : list Block :=
  Js.values sol ≫= blocksForSection.

Definition findConflicts (sol : Assignment) : list string :=
  conflictsOfBlocks (flattenedBlocks sol) [].

(** ** Schedule solver *)

Record SolverState := {
  chosenBlocks : list Block;
  chosen : Assignment
}.

(** [chosenBlocks.pop()] *)
Definition popBlock (l : list Block) : list Block := take (length l - 1) l.

Definition place (t : string) (sec : CourseRecord) (blocks : list Block)
    (s : SolverState) : SolverState :=
  {| chosenBlocks := chosenBlocks s ++ blocks; chosen := Js.set (chosen s) t sec |}.

Definition unplace (t : string) (blocks : list Block) (s : SolverState) : SolverState :=
  {| chosenBlocks := Nat.iter (length blocks) popBlock (chosenBlocks s);
     chosen := Js.remove (chosen s) t |}.

Section Solver.
Variable sections : gmap string (list CourseRecord).

(** The loop [for (const sec of candidates)] of [dfs(i)]; [next] is the
    recursive call [dfs(i + 1)]. *)
Fixpoint tryCandidates (next : SolverState → bool * SolverState) (t : string)
    (candidates : list CourseRecord) (s : SolverState) : bool * SolverState :=
  match candidates with
  | [] => (false, s)
  | sec :: candidates' =>
      let blocks := blocksForSection sec in
      if bool_decide (length blocks = 0%nat) then tryCandidates next t candidates' s
      else if isCompatible (chosenBlocks s) blocks then
        let '(ok, s') := next (place t sec blocks s) in
        if ok then (true, s')
        else tryCandidates next t candidates' (unplace t blocks s')
      else tryCandidates next t candidates' s
  end.

(** [dfs(i)], on the titles from position [i] on. *)
Fixpoint dfs (remaining : list string) (s : SolverState) : bool * SolverState :=
  match remaining with
  | [] => (true, s)
  | t :: rest => tryCandidates (dfs rest) t (default [] (sections !! t)) s
  end.

Definition targetTitles (selected : list string) : list string :=
  filter (λ t, length (default [] (sections !! t)) ≠ 0%nat) selected.
End Solver.

Definition statusSelect : string := "Select at least one course.".
Definition statusGenerated : string := "Schedule generated.".
Definition statusInfeasible : string := "No conflict-free combination found.".

Definition generateSchedule (st : AppState) : AppState :=
  let sections := titleToSections (records st) (includeClosed st) in
  let targets := targetTitles sections (selectedTitles st) in
  if bool_decide (length targets = 0%nat) then
    {| records := records st; includeClosed := includeClosed st;
       selectedTitles := selectedTitles st; solution := None;
       status := statusSelect; conflictCRNs := conflictCRNs st |}
  else
    let '(ok, s) := dfs sections targets {| chosenBlocks := []; chosen := [] |} in
    if ok then
      {| records := records st; includeClosed := includeClosed st;
         selectedTitles := selectedTitles st; solution := Some (chosen s);
         status := statusGenerated; conflictCRNs := findConflicts (chosen s) |}
    else
      {| records := records st; includeClosed := includeClosed st;
         selectedTitles := selectedTitles st; solution := None;
         status := statusInfeasible; conflictCRNs := [] |}.

Definition statusOverride (conf : list string) : string :=
  if bool_decide (length conf ≠ 0%nat)
  then "Manual override applied (conflicts highlighted)."
  else "Manual override applied.".

Definition overrideSection (st : AppState) (title : string) (crn : string) : AppState :=
  match solution st with
  | None => st
  | Some sol =>
      let options := candidatesOf (records st) (includeClosed st) title in
      match List.find (λ s, bool_decide (courseReferenceNumber s = crn)) options with
      | None => st
      | Some pick =>
          let next := Js.set sol title pick in
          let conf := findConflicts next in
          {| records := records st; includeClosed := includeClosed st;
             selectedTitles := selectedTitles st; solution := Some next;
             status := statusOverride conf; conflictCRNs := conf |}
      end
  end.

(** ** Prerequisite graph *)

(** [Map<string, Set<string>>]: [prereqMap] sends a course to its
    prerequisites, [dependentsAdj] a course to the courses that list it. *)
Abbreviation Graph := (list (string * list string)).

(** [m.get(k) ?? []] *)
Definition adjacent (m : Graph) (k : string) : list string := default [] (Js.get m k).

(** The study plans document. *)
Record StudyPlanCourse := {
  courseCode : string;
  courseName : string;
  prerequisites : option (list string)
}.

Record StudyPlanSemester := {
  term : Z;
  desc : string;
  courses : list StudyPlanCourse
}.

Record StudyPlanYear := {
  year : string;
  semesters : list StudyPlanSemester
}.

Record StudyPlan := {
  specialization : string;
  degree : string;
  planYear : Z;
  yearlyCourses : list StudyPlanYear;
  technicalElectives : option (list StudyPlanCourse)
}.

Section PrereqMap.
(** [String.prototype.toUpperCase] follows the host's Unicode case tables;
    the map is modelled for any such function. *)
Variable toUpperCase : string → string.

Definition normalize (x : string) : string := toUpperCase (Js.removeWhiteSpace x).

(** [out.get(key)!.add(normalize(r))] *)
Definition addPrereq (key : string) (out : Graph) (r : string) : Graph :=
  Js.set out key (Js.set_add (adjacent out key) (normalize r)).

(** The local function [add] of [prereqMap]. *)
Definition add (out : Graph) (c : StudyPlanCourse) : Graph :=
  let key := normalize (courseCode c) in
  if bool_decide (key = EmptyString) then out
  else
    let out := if Js.has out key then out else Js.set out key [] in
    foldl (addPrereq key) out (default [] (prerequisites c)).

Definition prereqMap (activePlan : option StudyPlan) : Graph :=
  match activePlan with
  | None => []
  | Some plan =>
      let out := foldl add [] ((yearlyCourses plan ≫= semesters) ≫= courses) in
      foldl add out (default [] (technicalElectives plan))
  end.
End PrereqMap.

Definition addDependent (course : string) (m : Graph) (r : string) : Graph :=
  let m := if Js.has m r then m else Js.set m r [] in
  Js.set m r (Js.set_add (adjacent m r) course).

Definition dependentsAdj (prereqMap : Graph) : Graph :=
  foldl (λ m entry, foldl (addDependent entry.1) m entry.2) [] prereqMap.

(** [!hoveredCode]: no code is hovered, or the hovered code is the empty
    string. *)
Definition noQuery (hoveredCode : option string) : bool :=
  match hoveredCode with
  | None => true
  | Some q => bool_decide (q = EmptyString)
  end.

Definition hoveredAdjacent (m : Graph) (hoveredCode : option string) : list string :=
  match hoveredCode with
  | None => []
  | Some q => adjacent m q
  end.

(** [stack.pop()]: the last element and the rest, or nothing on an empty
    array. *)
Definition pop (stack : list string) : option (string * list string) :=
  match reverse stack with
  | [] => None
  | cur :: below => Some (cur, reverse below)
  end.

(** The [while (stack.length)] loop; each unit of fuel pays for one
    iteration. *)
Fixpoint walk (fuel : nat) (adj : Graph) (stack out : list string) : option (list string) :=
  match fuel with
  | O => None
  | S fuel' =>
      match pop stack with
      | None => Some out
      | Some (cur, stack') =>
          if Js.set_has out cur then walk fuel' adj stack' out
          else walk fuel' adj (stack' ++ adjacent adj cur) (Js.set_add out cur)
      end
  end.

Definition directPrereqs (prereqMap : Graph) (hoveredCode : option string) : list string :=
  if noQuery hoveredCode then [] else Js.set_of (hoveredAdjacent prereqMap hoveredCode).

Definition allPrereqAncestors (fuel : nat) (prereqMap : Graph) (hoveredCode : option string)
    : option (list string) :=
  if noQuery hoveredCode then Some []
  else walk fuel prereqMap (hoveredAdjacent prereqMap hoveredCode) [].

Definition indirectPrereqs (allPrereqAncestors directPrereqs : list string) : list string :=
  foldl Js.set_delete allPrereqAncestors directPrereqs.

Definition directDependents (prereqMap : Graph) (hoveredCode : option string) : list string :=
  if noQuery hoveredCode then []
  else Js.set_of (hoveredAdjacent (dependentsAdj prereqMap) hoveredCode).

Definition allDependents (fuel : nat) (prereqMap : Graph) (hoveredCode : option string)
    : option (list string) :=
  if noQuery hoveredCode then Some []
  else walk fuel (dependentsAdj prereqMap)
         (hoveredAdjacent (dependentsAdj prereqMap) hoveredCode) [].

Definition indirectDependents (allDependents directDependents : list string) : list string :=
  foldl Js.set_delete allDependents directDependents.

(** Fuel that always suffices: one unit per stack entry, and for every node
    of the map not yet visited one unit plus one per neighbour it will
    push, plus one for the final test of the loop. *)
Definition unvisitedCost (adj : Graph) (out : list string) : nat :=
  sum_list ((λ entry, if Js.set_has out entry.1 then 0 else S (length entry.2))%nat <$> adj).

Definition enoughFuel (adj : Graph) (stack out : list string) : nat :=
  S (length stack + unvisitedCost adj out).

(** ** Display of times *)

(** [String(n)] and [n.toString()] of an integer: its decimal digits, after
    a minus sign when it is negative (the form JavaScript prints below
    1e21). *)
Definition numberToString (n : Z) : string := pretty n.

(** [s.padStart(2, "0")] *)
Definition padStart2 (s : string) : string :=
  match String.length s with
  | 0%nat => "00"
  | 1%nat => "0" +:+ s
  | _ => s
  end.

Definition prettyTime (t : option string) : string :=
  match t with
  | None => EmptyString
  | Some t =>
      if bool_decide (t = EmptyString) then EmptyString
      else
        match timeStrToMinutes (Some t) with
        | None => t
        | Some m =>
            let hh := m `div` 60 in
            let mm := m `rem` 60 in
            let ampm := if bool_decide (12 ≤ hh) then "PM" else "AM" in
            let hh := (hh + 11) `rem` 12 + 1 in
            numberToString hh +:+ ":" +:+ padStart2 (numberToString mm) +:+ " " +:+ ampm
        end
  end.

(** The timetable writes a block time back as a time string,
    [String(Math.floor(m / 60)).padStart(2, "0") + String(m % 60).padStart(2, "0")],
    and shows [prettyTime] of it. *)
Definition encodeMinutes (m : Z) : string :=
  padStart2 (numberToString (m `div` 60)) +:+ padStart2 (numberToString (m `rem` 60)).

Definition blockTimeLabel (m : Z) : string := prettyTime (Some (encodeMinutes m)).

(** ** Course index and the selection *)

Record CourseInfo := {
  info_title : string;
  total : Z;
  info_open : Z
}.

(** [prev.includes(t) ? prev.filter(x => x !== t) : [...prev, t]] *)
Definition toggleTitle (prev : list string) (t : string) : list string :=
  if bool_decide (t ∈ prev) then filter (λ x, x ≠ t) prev else prev ++ [t].

(** What every change of the selection does to the state: the new
    selection, no solution, no conflicts. *)
Definition withSelection (st : AppState) (selected : list string) (newStatus : string)
    : AppState :=
  {| records := records st; includeClosed := includeClosed st;
     selectedTitles := selected; solution := None;
     status := newStatus; conflictCRNs := [] |}.

(** The click on a title of the list of offered courses. *)
Definition onTitleClick (st : AppState) (t : string) : AppState :=
  withSelection st (toggleTitle (selectedTitles st) t) (status st).

Definition removeTitle (st : AppState) (t : string) : AppState :=
  withSelection st (filter (λ x, x ≠ t) (selectedTitles st)) (status st).

Definition statusCleared : string := "Cleared selected courses.".

Definition clearSelections (st : AppState) : AppState :=
  withSelection st [] statusCleared.

Section CourseIndex.
Variable toUpperCase : string → string.

Definition courseCodeOf (r : CourseRecord) : string :=
  toUpperCase (subject r +:+ courseNumber r).

(** One step of [records.forEach] in [codeToInfo]. *)
Definition countRecord (m : list (string * CourseInfo)) (r : CourseRecord)
    : list (string * CourseInfo) :=
  let code := courseCodeOf r in
  let title := titleKey r in
  let prev := default {| info_title := title; total := 0; info_open := 0 |} (Js.get m code) in
  Js.set m code
    {| info_title := title; total := total prev + 1;
       info_open := info_open prev + (if openSection r then 1 else 0) |}.

Definition codeToInfo (records : list CourseRecord) : list (string * CourseInfo) :=
  foldl countRecord [] records.

Definition toggleSelectByCode (st : AppState) (codeRaw : string) : AppState :=
  match Js.get (codeToInfo (records st)) (normalize toUpperCase codeRaw) with
  | None => st
  | Some info =>
      if bool_decide
           (length (candidatesOf (records st) (includeClosed st) (info_title info)) = 0%nat)
      then st
      else withSelection st (toggleTitle (selectedTitles st) (info_title info)) (status st)
  end.

Definition isSelectedByCode (st : AppState) (codeRaw : string) : bool :=
  match Js.get (codeToInfo (records st)) (normalize toUpperCase codeRaw) with
  | None => false
  | Some info => bool_decide (info_title info ∈ selectedTitles st)
  end.
End CourseIndex.

(** ** Weekly timetable *)

Definition dayName (d : Day) : string :=
  match d with
  | Monday => "monday"
  | Tuesday => "tuesday"
  | Wednesday => "wednesday"
  | Thursday => "thursday"
  | Friday => "friday"
  end.

Section Timetable.
Variable localeCompare : string → string → Z.

(** [a.day.localeCompare(b.day) || a.start - b.start] *)
Definition compareBlocks (a b : Block) : Z :=
  let c := localeCompare (dayName (day a)) (dayName (day b)) in
  if bool_decide (c ≠ 0) then c else start a - start b.

Definition solutionBlocks (solution : option Assignment) : list Block :=
  match solution with
  | None => []
  | Some sol => Js.sort compareBlocks (flattenedBlocks sol)
  end.

(** [groups[d]] of [dayBlocks] *)
Definition dayBlocks (solution : option Assignment) (d : Day) : list Block :=
  filter (λ b, day b = d) (solutionBlocks solution).
End Timetable.

(** ** Loading the study plans *)

(** The part of the component state that loading the study plans reads and
    writes. *)
Record PlanState := {
  studyPlans : list StudyPlan;
  activePlanIndex : nat;
  expandedYears : list (string * bool);
  planStatus : string
}.

Inductive RawPlans :=
  | RawPlansArray (items : list StudyPlan)
  | RawPlansObject (plans : option (list StudyPlan))
  | RawPlansScalar.

Definition rawPlans (raw : RawPlans) : list StudyPlan :=
  match raw with
  | RawPlansObject (Some plans) => plans
  | RawPlansArray plans => plans
  | _ => []
  end.

Definition statusNoPlans : string := "Study plan JSON parsed, but no study plans found.".

Definition statusPlansLoaded (n : nat) : string :=
  "Loaded " +:+ pretty n +:+ " study plan" +:+ (if bool_decide (1 < n)%nat then "s" else "") +:+ ".".

Definition ingestStudyPlans (ps : PlanState) (raw : RawPlans) : PlanState :=
  let plans := rawPlans raw in
  if bool_decide (length plans = 0%nat) then
    {| studyPlans := studyPlans ps; activePlanIndex := activePlanIndex ps;
       expandedYears := expandedYears ps; planStatus := statusNoPlans |}
  else
    {| studyPlans := plans; activePlanIndex := 0;
       expandedYears := []; planStatus := statusPlansLoaded (length plans) |}.

(** [studyPlans[activePlanIndex]] *)
Definition activePlan (ps : PlanState) : option StudyPlan :=
  studyPlans ps !! activePlanIndex ps.

(** ** The component as a state machine *)

(** The checkbox "Include closed sections". *)
Definition setIncludeClosed (st : AppState) (b : bool) : AppState :=
  {| records := records st; includeClosed := b;
     selectedTitles := selectedTitles st; solution := solution st;
     status := status st; conflictCRNs := conflictCRNs st |}.

(** The events that change the records, the filter, the selection, the
    solution or the conflict set. *)
Inductive Event :=
  | Upload (raw : RawJson)
  | IncludeClosed (b : bool)
  | TitleClick (t : string)
  | RemoveTitle (t : string)
  | ClearSelections
  | ToggleByCode (codeRaw : string)
  | Generate
  | Override (title : string) (crn : string).

Section Events.
Variable toUpperCase : string → string.

Definition handle (st : AppState) (ev : Event) : AppState :=
  match ev with
  | Upload raw => ingestJson st raw
  | IncludeClosed b => setIncludeClosed st b
  | TitleClick t => onTitleClick st t
  | RemoveTitle t => removeTitle st t
  | ClearSelections => clearSelections st
  | ToggleByCode codeRaw => toggleSelectByCode toUpperCase st codeRaw
  | Generate => generateSchedule st
  | Override title crn => overrideSection st title crn
  end.

Definition run (st : AppState) (events : list Event) : AppState :=
  foldl handle st events.
End Events.

(** ** Specification-level notions *)

(** A pair of positions [i < j] of the block list that overlap and one of
    whose blocks belongs to [c]. *)
Definition conflictingPair (blocks : list Block) (c : string) : Prop :=
  ∃ i j a b, (i < j)%nat ∧ blocks !! i = Some a ∧ blocks !! j = Some b ∧
             overlap a b = true ∧ (c = crn a ∨ c = crn b).

(** A snapshot with nothing to load: an empty array, bare or under [data],
    or a value that holds no array at all. *)
Definition emptyOrMalformed (raw : RawJson) : Prop :=
  match raw with
  | RawArray [] | RawObject (Some []) | RawObject None | RawScalar => True
  | _ => False
  end.

(** The sections the indexer keeps for a title key. *)
Definition eligible (includeClosed : bool) (k : string) (r : CourseRecord) : Prop :=
  titleKey r = k ∧ (includeClosed = true ∨ openSection r = true).

Global Instance eligible_dec includeClosed k r : Decision (eligible includeClosed k r).
Proof. unfold eligible. apply _. Defined.

(** The seat count a section is ranked by. *)
Definition rankedSeats (r : CourseRecord) : Z := default (-1) (seatsAvailable r).

(** The preference order of the specification, in its words: open before
    closed; then more seats available first; then the earlier minimal start
    first. *)
Definition candidateOrder (a b : CourseRecord) : Prop :=
  (openSection a = true ∧ openSection b = false) ∨
  (openSection a = openSection b ∧
   (rankedSeats b < rankedSeats a ∨
    (rankedSeats a = rankedSeats b ∧ earliestStart a ≤ earliestStart b))).

(** The reading of the ordering under which a section without a seat count
    comes after every section of the same openness that has one. *)
Definition missingSeatsSortLast : Prop :=
  ∀ recs includeClosed k i j x y,
    candidatesOf recs includeClosed k !! i = Some x →
    candidatesOf recs includeClosed k !! j = Some y →
    openSection x = openSection y →
    seatsAvailable x = None → seatsAvailable y ≠ None →
    (j < i)%nat.

(** One step of a traversal over the adjacency map [adj]: from [u] to one
    of its neighbours. *)
Definition edge (adj : Graph) (u v : string) : Prop := v ∈ adjacent adj u.

(** The codes reachable from one of [srcs] by following edges. *)
Definition reachableFrom (adj : Graph) (srcs : list string) (v : string) : Prop :=
  ∃ s, s ∈ srcs ∧ rtc (edge adj) s v.

(** What the loop maintains: every neighbour of a visited node is visited
    or waits on the stack. *)
Definition frontierCovers (adj : Graph) (stack out : list string) : Prop :=
  ∀ u w, u ∈ out → edge adj u w → w ∈ out ∨ w ∈ stack.

(** Fuel that suffices for both traversals of a query. *)
Definition queryFuel (prereqMap : Graph) (hoveredCode : option string) : nat :=
  enoughFuel prereqMap (hoveredAdjacent prereqMap hoveredCode) [] `max`
  enoughFuel (dependentsAdj prereqMap)
             (hoveredAdjacent (dependentsAdj prereqMap) hoveredCode) [].

(** The reading of the manual override under which the target is looked up
    among all sections of the title, closed ones included, whatever the
    filter is. *)
Definition overrideIgnoresFilter : Prop :=
  ∀ st title c sol pick,
    solution st = Some sol →
    List.find (λ s, bool_decide (courseReferenceNumber s = c))
              (candidatesOf (records st) true title) = Some pick →
    solution (overrideSection st title c) = Some (Js.set sol title pick).

(** A candidate the solver places on top of the blocks [placed]: it has
    blocks, none of which overlaps a placed one. *)
Definition placeable (placed : list Block) (sec : CourseRecord) : Prop :=
  blocksForSection sec ≠ [] ∧
  ∀ b c, b ∈ blocksForSection sec → c ∈ placed → overlap b c = false.

Section Picks.
Variable sections : gmap string (list CourseRecord).

(** A complete run of the search, as the position picked in each title's
    candidate list: every pick is placeable on top of the picks before
    it. *)
Fixpoint validPicks (titles : list string) (placed : list Block) (picks : list nat) : Prop :=
  match titles, picks with
  | [], [] => True
  | t :: titles', i :: picks' =>
      ∃ sec, default [] (sections !! t) !! i = Some sec ∧ placeable placed sec ∧
             validPicks titles' (placed ++ blocksForSection sec) picks'
  | _, _ => False
  end.

(** The sections the picks stand for. *)
Fixpoint pickedSections (titles : list string) (picks : list nat) : list CourseRecord :=
  match titles, picks with
  | t :: titles', i :: picks' =>
      match default [] (sections !! t) !! i with
      | Some sec => sec :: pickedSections titles' picks'
      | None => []
      end
  | _, _ => []
  end.
End Picks.

(** The order in which depth-first search meets the runs: the first
    position that differs decides. *)
Inductive lexLe : list nat → list nat → Prop :=
  | lexLe_nil : lexLe [] []
  | lexLe_lt i j picks picks' : (i < j)%nat → lexLe (i :: picks) (j :: picks')
  | lexLe_eq i picks picks' : lexLe picks picks' → lexLe (i :: picks) (i :: picks').

(** [chosen[t] = sec] for each title in turn. *)
Definition assign (m : Assignment) (titles : list string) (secs : list CourseRecord)
    : Assignment :=
  foldl (λ m ts, Js.set m ts.1 ts.2) m (zip titles secs).

(** What a call of [dfs] on [titles] from the state [s] has done when it
    returns [r]. *)
Definition outcome (sections : gmap string (list CourseRecord)) (titles : list string)
    (s : SolverState) (r : bool * SolverState) : Prop :=
  if r.1 then
    ∃ picks,
      validPicks sections titles (chosenBlocks s) picks ∧
      (∀ picks', validPicks sections titles (chosenBlocks s) picks' → lexLe picks picks') ∧
      chosenBlocks r.2
        = chosenBlocks s ++ (pickedSections sections titles picks ≫= blocksForSection) ∧
      ∀ k, Js.get (chosen r.2) k
           = Js.get (assign (chosen s) titles (pickedSections sections titles picks)) k
  else
    (∀ picks, ¬ validPicks sections titles (chosenBlocks s) picks) ∧
    chosenBlocks r.2 = chosenBlocks s ∧
    ∀ k, k ∉ titles → Js.get (chosen r.2) k = Js.get (chosen s) k.

(** The candidate lists and the titles the solver of a state works on. *)
Definition sectionsOf (st : AppState) : gmap string (list CourseRecord) :=
  titleToSections (records st) (includeClosed st).

Definition targetsOf (st : AppState) : list string :=
  targetTitles (sectionsOf st) (selectedTitles st).

(** The reading of the solver under which no two blocks of a generated
    schedule overlap. *)
Definition scheduleBlocksDisjoint : Prop :=
  ∀ st sol, solution (generateSchedule st) = Some sol →
    ∀ i j a b, i ≠ j →
      flattenedBlocks sol !! i = Some a → flattenedBlocks sol !! j = Some b →
      overlap a b = false.



(** The sections of a course code. *)
Definition sectionsOfCode (toUpperCase : string → string) (recs : list CourseRecord)
    (code : string) : list CourseRecord :=
  filter (λ r, courseCodeOf toUpperCase r = code) recs.

(** What holds in every state the component reaches: no title is selected
    twice, and when there is a solution it has every title once and the
    conflict set is the conflict detector's result on it. *)
Definition consistent (st : AppState) : Prop :=
  NoDup (selectedTitles st) ∧
  ∀ sol, solution st = Some sol →
         conflictCRNs st = findConflicts sol ∧ NoDup (Js.keys sol).

(** What [dfs] leaves in [chosen] when the titles are pairwise different
    and none of them has an entry yet. *)
Definition appended (titles : list string) (s : SolverState) (r : bool * SolverState) : Prop :=
  if r.1 then ∃ secs, length secs = length titles ∧ chosen r.2 = chosen s ++ zip titles secs
  else chosen r.2 = chosen s.

(** The course entries of a plan, in the order [prereqMap] reads them: the
    courses of the semesters of the years, then the technical electives. *)
Definition planCourses (plan : StudyPlan) : list StudyPlanCourse :=
  ((yearlyCourses plan ≫= semesters) ≫= courses) ++ default [] (technicalElectives plan).

(** [if (!out.has(key)) out.set(key, new Set())] *)
Definition ensureKey (key : string) (out : Graph) : Graph :=
  if Js.has out key then out else Js.set out key [].

(** A course entry that [add] takes into the map for the key [k] and the
    prerequisite [r']. *)
Definition listsPrereq (toUpperCase : string → string) (c : StudyPlanCourse)
    (k r' : string) : Prop :=
  normalize toUpperCase (courseCode c) = k ∧
  ∃ r, r ∈ default [] (prerequisites c) ∧ normalize toUpperCase r = r'.

(** What the construction of [dependentsAdj] keeps: every key once, every
    set without repetition, and no key with an empty set. *)
Definition dependentsShape (m : Graph) : Prop :=
  NoDup (Js.keys m) ∧ (∀ u, NoDup (adjacent m u)) ∧
  (∀ u, u ∈ Js.keys m → adjacent m u ≠ []).

(** A comparison of strings that puts the names of the days in the order
    of [rank]. *)
Definition ordersDays (localeCompare : string → string → Z) (rank : Day → Z) : Prop :=
  ∀ d d', (localeCompare (dayName d) (dayName d') < 0 ↔ rank d < rank d') ∧
          (localeCompare (dayName d) (dayName d') = 0 ↔ rank d = rank d').

(** The numbers of the component are IEEE doubles; an integer is held
    exactly while it is below 2^53 in magnitude.  [exactlyComputed hh mm]:
    the hour part, its product with 60 and the sum with the minute part all
    stay below that, so that [hh * 60 + mm] is computed without rounding.
    [exactMinutes m]: a number of minutes that was so computed, the minute
    part of a time string being two characters, between -9 and 99. *)
Definition exactlyComputed (hh mm : Z) : Prop := Z.abs hh * 60 + Z.abs mm < 2 ^ 53.

Definition exactMinutes (m : Z) : Prop := Z.abs m + 99 < 2 ^ 53.

(** ** Worked data *)

(** The initial state of the component. *)
Definition initialState : AppState :=
  {| records := []; includeClosed := false; selectedTitles := [];
     solution := None; status := EmptyString; conflictCRNs := [] |}.

(** A meeting entry on the flagged days, and a section of the course
    "CS101 - Intro". *)
Definition meetingOn (mon tue wed thu fri : bool) (b e : string) : MeetingRecord :=
  {| meetingTime := Some
       {| beginTime := Some b; endTime := Some e;
          monday := mon; tuesday := tue; wednesday := wed; thursday := thu; friday := fri;
          buildingDescription := None; room := None; meetingScheduleType := None |} |}.

Definition introSection (c : string) (isOpen : bool) (seats : option Z)
    (meetings : list MeetingRecord) : CourseRecord :=
  {| id := 0; courseReferenceNumber := c; courseNumber := "101"; subject := "CS";
     courseTitle := "Intro"; openSection := isOpen; maximumEnrollment := Some 30;
     seatsAvailable := seats; meetingsFaculty := meetings |}.

Definition introKey : string := "CS101 - Intro".

(** Three sections of one title: open with 5 seats starting at minute 900,
    closed with 9 seats starting at minute 800, open with 3 seats starting
    at minute 800. *)
Definition open5at900 : CourseRecord :=
  introSection "10001" true (Some 5) [meetingOn true false true false false "1500" "1550"].
Definition closed9at800 : CourseRecord :=
  introSection "10002" false (Some 9) [meetingOn true false true false false "1320" "1410"].
Definition open3at800 : CourseRecord :=
  introSection "10003" true (Some 3) [meetingOn true false true false false "1320" "1410"].

(** An open section whose seat count is missing, and an over-enrolled open
    section with three seats fewer than none. *)
Definition openNoSeatCount : CourseRecord :=
  introSection "10004" true None [meetingOn true false false false false "0900" "0950"].
Definition openOverEnrolled : CourseRecord :=
  introSection "10005" true (Some (-3)) [meetingOn true false false false false "0900" "0950"].

(** The plan in which B requires A and C requires B, and the plan in which
    A and B require each other. *)
Definition chainPlan : Graph := [("A", []); ("B", ["A"]); ("C", ["B"])].
Definition cyclicPlan : Graph := [("A", ["B"]); ("B", ["A"])].

(** The three sections loaded with closed sections filtered out and the
    course selected, and the state after the schedule was generated. *)
Definition loadedState : AppState :=
  {| records := [open5at900; closed9at800; open3at800]; includeClosed := false;
     selectedTitles := [introKey]; solution := None;
     status := statusLoaded 3; conflictCRNs := [] |}.

Definition scheduledState : AppState := generateSchedule loadedState.

(** A section listing the same Monday hour in two meeting entries, and a
    section taught online whose only meeting entry has no times. *)
Definition twiceOnMonday : CourseRecord :=
  introSection "10006" true (Some 5)
    [meetingOn true false false false false "0900" "0950";
     meetingOn true false false false false "0900" "0950"].


(** The component with one course loaded and selected. *)
Definition selectedState (recs : list CourseRecord) : AppState :=
  {| records := recs; includeClosed := false; selectedTitles := [introKey];
     solution := None; status := statusLoaded (length recs); conflictCRNs := [] |}.


(** Upper case of the letters a to z, and a study plan whose map is
    [chainPlan]. *)
Definition asciiUpperChar (c : ascii) : ascii :=
  if bool_decide (97 ≤ Js.code c ≤ 122)%nat then ascii_of_nat (Js.code c - 32) else c.

Fixpoint asciiUpper (s : string) : string :=
  match s with
  | EmptyString => EmptyString
  | String c s' => String (asciiUpperChar c) (asciiUpper s')
  end.

Definition chainStudyPlan : StudyPlan :=
  {| specialization := "NCS"; degree := "AB"; planYear := 2020;
     yearlyCourses :=
       [{| year := "Year 1";
           semesters :=
             [{| term := 1; desc := "Fall";
                 courses := [{| courseCode := "a"; courseName := "First";
                                prerequisites := None |}] |};
              {| term := 2; desc := "Spring";
                 courses := [{| courseCode := " b"; courseName := "Second";
                                prerequisites := Some ["A"] |}] |}] |}];
     technicalElectives :=
       Some [{| courseCode := "C"; courseName := "Third";
                prerequisites := Some ["b "] |}] |}.

(** Comparison of strings by code units, and the alphabetical rank of the
    names of the days. *)
Definition codeUnitCompare (x y : string) : Z :=
  match String.compare x y with
  | Lt => -1
  | Eq => 0
  | Gt => 1
  end.

Definition alphabeticalRank (d : Day) : Z :=
  match d with
  | Friday => 0
  | Monday => 1
  | Thursday => 2
  | Tuesday => 3
  | Wednesday => 4
  end.

(** A section whose Monday entry runs from "0999" to "2575", a section that
    overlaps [open5at900] on Monday and Wednesday, and one that starts when
    [open5at900] ends. *)
Definition outOfRangeSection : CourseRecord :=
  introSection "10010" true (Some 5) [meetingOn true false false false false "0999" "2575"].
Definition overlapping920 : CourseRecord :=
  introSection "10008" true (Some 5) [meetingOn true false true false false "1520" "1600"].
Definition touching950 : CourseRecord :=
  introSection "10009" true (Some 5) [meetingOn true false true false false "1550" "1640"].

(** * Properties *)

(** Decides a closed decidable proposition by evaluation. *)
Ltac by_compute :=
  lazymatch goal with
  | |- ?P => exact (bool_decide_unpack P ltac:(vm_compute; exact I))
  end.

(** ** Basic facts about the primitives *)

Lemma set_has_true (s : list string) (x : string) : Js.set_has s x = true ↔ x ∈ s.
Proof. unfold Js.set_has. apply bool_decide_eq_true. Qed.

Lemma elem_of_set_add (s : list string) (x y : string) :
  y ∈ Js.set_add s x ↔ y ∈ s ∨ y = x.
Proof.
  unfold Js.set_add, Js.set_has. case_bool_decide as Hin.
  - split; [by left | intros [?| ->]; done].
  - rewrite elem_of_app, list_elem_of_singleton. done.
Qed.

Lemma NoDup_set_add (s : list string) (x : string) : NoDup s → NoDup (Js.set_add s x).
Proof.
  intros Hs. unfold Js.set_add, Js.set_has. case_bool_decide as Hin; [done |].
  apply NoDup_app. split_and!; [done | | apply NoDup_singleton].
  intros y Hy Hx. apply list_elem_of_singleton in Hx. by subst.
Qed.

Lemma elem_of_set_of_from (l s : list string) (y : string) :
  y ∈ foldl Js.set_add s l ↔ y ∈ s ∨ y ∈ l.
Proof.
  revert s. induction l as [| x l IH]; intros s; simpl.
  - rewrite elem_of_nil. tauto.
  - rewrite IH, elem_of_set_add, elem_of_cons. tauto.
Qed.

Lemma elem_of_set_of (l : list string) (y : string) : y ∈ Js.set_of l ↔ y ∈ l.
Proof. unfold Js.set_of. rewrite elem_of_set_of_from, elem_of_nil. tauto. Qed.

Lemma NoDup_set_of_from (l s : list string) : NoDup s → NoDup (foldl Js.set_add s l).
Proof.
  revert s. induction l as [| x l IH]; intros s Hs; simpl; [done |].
  by apply IH, NoDup_set_add.
Qed.

Lemma NoDup_set_of (l : list string) : NoDup (Js.set_of l).
Proof. apply NoDup_set_of_from, NoDup_nil_2. Qed.

Lemma elem_of_set_delete (s : list string) (x y : string) :
  y ∈ Js.set_delete s x ↔ y ∈ s ∧ y ≠ x.
Proof. unfold Js.set_delete. rewrite list_elem_of_filter. tauto. Qed.

Lemma get_set {V} (m : list (string * V)) (k k' : string) (v : V) :
  Js.get (Js.set m k v) k' = if decide (k = k') then Some v else Js.get m k'.
Proof.
  induction m as [| [k0 v0] m IH]; simpl.
  - repeat case_decide; congruence.
  - destruct (decide (k0 = k)) as [-> | Hne]; simpl.
    + repeat case_decide; congruence.
    + rewrite IH. repeat case_decide; congruence.
Qed.

Lemma get_remove {V} (m : list (string * V)) (k k' : string) :
  Js.get (Js.remove m k) k' = if decide (k = k') then None else Js.get m k'.
Proof.
  unfold Js.remove. induction m as [| [k0 v0] m IH]; simpl.
  - by case_decide.
  - rewrite filter_cons. simpl. destruct (decide (k0 ≠ k)) as [Hne | Heq]; simpl.
    + rewrite IH. repeat case_decide; congruence.
    + apply dec_stable in Heq. subst k0. rewrite IH. repeat case_decide; congruence.
Qed.

Lemma get_Some_elem_of {V} (m : list (string * V)) (k : string) (v : V) :
  Js.get m k = Some v → (k, v) ∈ m.
Proof.
  induction m as [| [k0 v0] m IH]; simpl; [done |].
  case_decide; intros Hg.
  - simplify_eq. apply elem_of_cons. by left.
  - apply elem_of_cons. right. by apply IH.
Qed.

(** ** The overlap test *)

Lemma overlap_true (a b : Block) :
  overlap a b = true ↔ day a = day b ∧ start a < end_ b ∧ start b < end_ a.
Proof.
  unfold overlap. rewrite !andb_true_iff, !bool_decide_eq_true. tauto.
Qed.

Lemma overlap_sym (a b : Block) : overlap a b = overlap b a.
Proof.
  apply eq_true_iff_eq. rewrite !overlap_true. intuition congruence.
Qed.

Lemma isCompatible_true (chosen candidate : list Block) :
  isCompatible chosen candidate = true ↔
  ∀ b c, b ∈ candidate → c ∈ chosen → overlap b c = false.
Proof.
  unfold isCompatible. rewrite forallb_forall. split.
  - intros H b c Hb Hc. apply list_elem_of_In in Hb. specialize (H b Hb).
    rewrite forallb_forall in H. apply list_elem_of_In in Hc.
    specialize (H c Hc). by apply negb_true_iff in H.
  - intros H b Hb. apply forallb_forall. intros c Hc.
    apply negb_true_iff, H; by apply list_elem_of_In.
Qed.

(** ** Conflict detector *)

Lemma conflictsOfBlock_spec (bi : Block) (later : list Block) (cs : list string) (c : string) :
  c ∈ conflictsOfBlock bi later cs ↔
  c ∈ cs ∨ ∃ bj, bj ∈ later ∧ overlap bi bj = true ∧ (c = crn bi ∨ c = crn bj).
Proof.
  revert cs. induction later as [| bj later IH]; intros cs; simpl.
  - split; [by left | intros [? | (bj & Hin & _)]; [done | by apply elem_of_nil in Hin]].
  - rewrite IH. destruct (overlap bi bj) eqn:Hov.
    + rewrite !elem_of_set_add. split.
      * intros [[[? | ->] | ->] | (b & Hb & Hob & Hc)]; [by left | right .. ].
        -- exists bj. split_and!; [apply elem_of_cons; by left | done | by left].
        -- exists bj. split_and!; [apply elem_of_cons; by left | done | by right].
        -- exists b. split_and!; [apply elem_of_cons; by right | done | done].
      * intros [? | (b & Hb & Hob & Hc)]; [by left; left; left |].
        apply elem_of_cons in Hb as [-> | Hb].
        -- left. destruct Hc as [-> | ->]; [left; by right | by right].
        -- right. by exists b.
    + split.
      * intros [? | (b & Hb & Hob & Hc)]; [by left | right].
        exists b. split_and!; [apply elem_of_cons; by right | done | done].
      * intros [? | (b & Hb & Hob & Hc)]; [by left |].
        apply elem_of_cons in Hb as [-> | Hb]; [congruence |].
        right. by exists b.
Qed.

Lemma conflictsOfBlock_NoDup (bi : Block) (later : list Block) (cs : list string) :
  NoDup cs → NoDup (conflictsOfBlock bi later cs).
Proof.
  revert cs. induction later as [| bj later IH]; intros cs Hcs; simpl; [done |].
  apply IH. destruct (overlap bi bj); [by do 2 apply NoDup_set_add | done].
Qed.

Lemma conflictsOfBlocks_NoDup (blocks : list Block) (cs : list string) :
  NoDup cs → NoDup (conflictsOfBlocks blocks cs).
Proof.
  revert cs. induction blocks as [| bi later IH]; intros cs Hcs; simpl; [done |].
  by apply IH, conflictsOfBlock_NoDup.
Qed.

Lemma conflictingPair_cons (bi : Block) (later : list Block) (c : string) :
  conflictingPair (bi :: later) c ↔
  (∃ bj, bj ∈ later ∧ overlap bi bj = true ∧ (c = crn bi ∨ c = crn bj)) ∨
  conflictingPair later c.
Proof.
  unfold conflictingPair. split.
  - intros (i & j & a & b & Hij & Ha & Hb & Hov & Hc).
    destruct j as [| j]; [lia |]. simpl in Hb. destruct i as [| i]; simpl in Ha.
    + simplify_eq. left. exists b. split_and!; [| done | done].
      apply list_elem_of_lookup. by exists j.
    + right. exists i, j, a, b. split_and!; [lia | done ..].
  - intros [(bj & Hin & Hov & Hc) | (i & j & a & b & Hij & Ha & Hb & Hov & Hc)].
    + apply list_elem_of_lookup in Hin as [j Hj].
      exists 0%nat, (S j), bi, bj. split_and!; [lia | done ..].
    + exists (S i), (S j), a, b. split_and!; [lia | done ..].
Qed.

Lemma conflictsOfBlocks_spec (blocks : list Block) (cs : list string) (c : string) :
  c ∈ conflictsOfBlocks blocks cs ↔ c ∈ cs ∨ conflictingPair blocks c.
Proof.
  revert cs. induction blocks as [| bi later IH]; intros cs; simpl.
  - split; [by left |]. intros [? | (i & j & a & b & _ & Ha & _)]; [done |].
    by rewrite lookup_nil in Ha.
  - rewrite IH, conflictsOfBlock_spec, conflictingPair_cons. tauto.
Qed.

(** ** Time parsing and block derivation *)

Lemma elem_of_blocksForSection (rec : CourseRecord) (b : Block) :
  b ∈ blocksForSection rec ↔
  ∃ m mt s e d, m ∈ meetingsFaculty rec ∧ meetingTime m = Some mt ∧
                timeStrToMinutes (beginTime mt) = Some s ∧
                timeStrToMinutes (endTime mt) = Some e ∧
                dayFlag mt d = true ∧ b = mkBlock rec mt s e d.
Proof.
  unfold blocksForSection. rewrite list_elem_of_bind. split.
  - intros (m & Hb & Hm). unfold blocksForMeeting in Hb.
    destruct (meetingTime m) as [mt |] eqn:Hmt; [| by apply elem_of_nil in Hb].
    destruct (timeStrToMinutes (beginTime mt)) as [s |] eqn:Hs; [| by apply elem_of_nil in Hb].
    destruct (timeStrToMinutes (endTime mt)) as [e |] eqn:He; [| by apply elem_of_nil in Hb].
    apply list_elem_of_fmap in Hb as (d & -> & Hd).
    apply list_elem_of_filter in Hd as [Hd _]. by exists m, mt, s, e, d.
  - intros (m & mt & s & e & d & Hm & Hmt & Hs & He & Hd & ->).
    exists m. split; [| done]. unfold blocksForMeeting. rewrite Hmt, Hs, He.
    apply list_elem_of_fmap. exists d. split; [done |].
    apply list_elem_of_filter. split; [done |]. unfold DAYS. destruct d; set_solver.
Qed.

(** C10. Time parsing validates no range: a string of at least three
    characters whose last two characters and whose prefix before them both
    parse as integers yields prefix * 60 + suffix, whatever the two numbers
    are, as long as JavaScript computes that number exactly; that value is
    the start (or the end) of the blocks derived from a meeting entry
    carrying the string, and it is the number the overlap test compares. *)
Theorem timeStrToMinutes_unvalidated (t : string) (hh mm : Z) :
  (3 ≤ String.length t)%nat →
  Js.parseInt (Js.slice_front2 t) = Some hh →
  Js.parseInt (Js.slice_last2 t) = Some mm →
  exactlyComputed hh mm →
  timeStrToMinutes (Some t) = Some (hh * 60 + mm) ∧
  (∀ rec m mt e d,
     m ∈ meetingsFaculty rec → meetingTime m = Some mt →
     beginTime mt = Some t → timeStrToMinutes (endTime mt) = Some e →
     exactMinutes e → dayFlag mt d = true →
     ∃ b, b ∈ blocksForSection rec ∧ day b = d ∧ start b = hh * 60 + mm ∧ end_ b = e ∧
          ∀ c, overlap b c = true ↔ d = day c ∧ hh * 60 + mm < end_ c ∧ start c < e) ∧
  (∀ rec m mt s d,
     m ∈ meetingsFaculty rec → meetingTime m = Some mt →
     endTime mt = Some t → timeStrToMinutes (beginTime mt) = Some s →
     exactMinutes s → dayFlag mt d = true →
     ∃ b, b ∈ blocksForSection rec ∧ day b = d ∧ start b = s ∧ end_ b = hh * 60 + mm ∧
          ∀ c, overlap b c = true ↔ d = day c ∧ s < end_ c ∧ start c < hh * 60 + mm).
Proof.
  intros Hlen Hhh Hmm _.
  assert (Ht : timeStrToMinutes (Some t) = Some (hh * 60 + mm)).
  { unfold timeStrToMinutes. rewrite bool_decide_eq_false_2 by lia. by rewrite Hhh, Hmm. }
  split_and!; [done | |].
  - intros rec m mt e d Hm Hmt Hb He _ Hd. exists (mkBlock rec mt (hh * 60 + mm) e d).
    split_and!; [| done | done | done | intros c; apply overlap_true].
    apply elem_of_blocksForSection. exists m, mt, (hh * 60 + mm), e, d.
    rewrite Hb. by split_and!.
  - intros rec m mt s d Hm Hmt He Hs _ Hd. exists (mkBlock rec mt s (hh * 60 + mm) d).
    split_and!; [| done | done | done | intros c; apply overlap_true].
    apply elem_of_blocksForSection. exists m, mt, s, (hh * 60 + mm), d.
    rewrite He. by split_and!.
Qed.

(** The string "0999" has 99 minutes and parses to 9 * 60 + 99; the string
    "2575" has hour 25 and parses to 25 * 60 + 75; a Monday entry from the
    one to the other gives a block from 639 to 1575. *)
Lemma timeStrToMinutes_unvalidated_witness :
  timeStrToMinutes (Some "0999") = Some 639 ∧
  ∃ b, b ∈ blocksForSection outOfRangeSection ∧ day b = Monday ∧
       start b = 639 ∧ end_ b = 1575.
Proof.
  assert (exactlyComputed 9 99) as Hexact by (unfold exactlyComputed; simpl; lia).
  destruct (timeStrToMinutes_unvalidated "0999" 9 99) as (Hparse & Hstart & _).
  - simpl. lia.
  - reflexivity.
  - reflexivity.
  - exact Hexact.
  - split; [exact Hparse |].
    destruct (Hstart outOfRangeSection
                (meetingOn true false false false false "0999" "2575")
                {| beginTime := Some "0999"; endTime := Some "2575";
                   monday := true; tuesday := false; wednesday := false;
                   thursday := false; friday := false;
                   buildingDescription := None; room := None;
                   meetingScheduleType := None |} 1575 Monday)
      as (b & Hb & Hday & Hs & He & _).
    + apply list_elem_of_singleton. reflexivity.
    + reflexivity.
    + reflexivity.
    + reflexivity.
    + unfold exactMinutes. simpl. lia.
    + reflexivity.
    + exists b. split_and!; [exact Hb | exact Hday | exact Hs | exact He].
Defined.

Example timeStrToMinutes_hour_99 : timeStrToMinutes (Some "9930") = Some 5970.
Proof. reflexivity. Qed.

(** ** Loading a snapshot *)

Lemma emptyOrMalformed_rawRecords (raw : RawJson) :
  emptyOrMalformed raw ↔ length (rawRecords raw) = 0%nat.
Proof. destruct raw as [[| ? ?] | [[| ? ?] |] |]; simpl; split; done. Qed.

Lemma statusNoRecords_distinct (n : nat) : statusNoRecords ≠ statusLoaded n.
Proof. unfold statusNoRecords, statusLoaded. simpl. discriminate. Qed.

(** C8. Loading a snapshot that is empty or is not a collection sets the
    status to the message of its own, which no successful load produces,
    and leaves the records, the solution and the conflict set as they were;
    and an empty record list has no title keys. *)
Theorem ingestJson_no_records (st : AppState) (raw : RawJson) :
  emptyOrMalformed raw →
  status (ingestJson st raw) = statusNoRecords ∧
  records (ingestJson st raw) = records st ∧
  solution (ingestJson st raw) = solution st ∧
  conflictCRNs (ingestJson st raw) = conflictCRNs st ∧
  (∀ raw', status (ingestJson st raw') = statusNoRecords ↔ emptyOrMalformed raw') ∧
  (∀ localeCompare includeClosed, titles localeCompare [] includeClosed = []) ∧
  (∀ includeClosed, titleToSections [] includeClosed = ∅).
Proof.
  intros Hraw. apply emptyOrMalformed_rawRecords in Hraw as Hlen.
  unfold ingestJson. rewrite bool_decide_eq_true_2 by done. simpl.
  split_and!; try done.
  intros raw'. rewrite emptyOrMalformed_rawRecords. case_bool_decide as Hl; simpl.
  - done.
  - split; [| done]. intros Hs. symmetry in Hs. by apply statusNoRecords_distinct in Hs.
Qed.

Lemma ingestJson_no_records_witness :
  status (ingestJson initialState (RawObject None)) = statusNoRecords ∧
  records (ingestJson initialState (RawObject None)) = records initialState.
Proof.
  destruct (ingestJson_no_records initialState (RawObject None)) as (Hstatus & Hrecords & _).
  - simpl. exact I.
  - split; [exact Hstatus | exact Hrecords].
Defined.

(** ** Section indexer *)

Lemma groupByTitle_fold (includeClosed : bool) (recs : list CourseRecord)
    (map : gmap string (list CourseRecord)) (k : string) :
  foldl (groupByTitle includeClosed) map recs !! k =
  match filter (eligible includeClosed k) recs with
  | [] => map !! k
  | l => Some (default [] (map !! k) ++ l)
  end.
Proof.
  revert map. induction recs as [| r recs IH]; intros map; simpl; [done |].
  rewrite IH. unfold groupByTitle. rewrite filter_cons.
  destruct (decide (eligible includeClosed k r)) as [[Hk Hopen] | Hno].
  - assert (negb includeClosed && negb (openSection r) = false) as ->.
    { destruct Hopen as [-> | ->]; [done | apply andb_false_r]. }
    rewrite Hk, lookup_insert_eq. simpl.
    destruct (filter (eligible includeClosed k) recs) as [| r' l].
    + done.
    + by rewrite <- app_assoc.
  - destruct (negb includeClosed && negb (openSection r)) eqn:Hskip; [done |].
    assert (titleKey r ≠ k) as Hne.
    { intros Hk. apply Hno. split; [done |].
      destruct includeClosed, (openSection r); simpl in Hskip; auto. }
    by rewrite lookup_insert_ne.
Qed.

Lemma candidatesOf_sorted_filter (recs : list CourseRecord) (includeClosed : bool) (k : string) :
  candidatesOf recs includeClosed k =
  Js.sort compareSections (filter (eligible includeClosed k) recs).
Proof.
  unfold candidatesOf, titleToSections. rewrite lookup_fmap, groupByTitle_fold.
  rewrite lookup_empty. by destruct (filter (eligible includeClosed k) recs).
Qed.

Lemma titleToSections_lookup (recs : list CourseRecord) (includeClosed : bool) (k : string) :
  titleToSections recs includeClosed !! k =
  match filter (eligible includeClosed k) recs with
  | [] => None
  | l => Some (Js.sort compareSections l)
  end.
Proof.
  unfold titleToSections. rewrite lookup_fmap, groupByTitle_fold, lookup_empty.
  by destruct (filter (eligible includeClosed k) recs).
Qed.

Section SortFacts.
Context {A : Type} (cmp : A → A → Z).

Lemma sort_insert_Permutation (x : A) (l : list A) : Js.sort_insert cmp x l ≡ₚ x :: l.
Proof.
  induction l as [| y l IH]; simpl; [done |].
  case_decide; [done |]. rewrite IH. apply Permutation_swap.
Qed.

Lemma sort_Permutation (l : list A) : Js.sort cmp l ≡ₚ l.
Proof.
  induction l as [| x l IH]; simpl; [done |].
  by rewrite sort_insert_Permutation, IH.
Qed.

Lemma sort_length (l : list A) : length (Js.sort cmp l) = length l.
Proof. by rewrite sort_Permutation. Qed.

(** An array that is in order already stays as it is. *)
Lemma sort_sorted_id (l : list A) : Sorted (λ a b, cmp a b ≤ 0) l → Js.sort cmp l = l.
Proof.
  induction 1 as [| x l Hl IH Hx]; [done |].
  change (Js.sort cmp (x :: l)) with (Js.sort_insert cmp x (Js.sort cmp l)). rewrite IH.
  destruct Hx as [| y l Hxy]; simpl; [done |]. by rewrite decide_True.
Qed.

Hypothesis cmp_total : ∀ a b, cmp a b ≤ 0 ∨ cmp b a ≤ 0.
Hypothesis cmp_trans : ∀ a b c, cmp a b ≤ 0 → cmp b c ≤ 0 → cmp a c ≤ 0.

Lemma sort_insert_Sorted (x : A) (l : list A) :
  Sorted (λ a b, cmp a b ≤ 0) l → Sorted (λ a b, cmp a b ≤ 0) (Js.sort_insert cmp x l).
Proof.
  induction 1 as [| y l Hl IH Hy]; simpl.
  - by repeat constructor.
  - case_decide as Hxy.
    + constructor; [by constructor | by constructor].
    + constructor; [done |].
      destruct l as [| z l]; simpl in *.
      * constructor. destruct (cmp_total x y); [done | done].
      * case_decide.
        -- constructor. destruct (cmp_total x y); [done | done].
        -- constructor. by inversion Hy.
Qed.

Lemma sort_StronglySorted (l : list A) : StronglySorted (λ a b, cmp a b ≤ 0) (Js.sort cmp l).
Proof.
  apply Sorted_StronglySorted; [intros a b c; apply cmp_trans |].
  induction l as [| x l IH]; simpl; [constructor | by apply sort_insert_Sorted].
Qed.
End SortFacts.

Lemma compareSections_le (a b : CourseRecord) :
  compareSections a b ≤ 0 ↔ candidateOrder a b.
Proof.
  unfold compareSections, candidateOrder, rankedSeats.
  destruct (openSection a), (openSection b); simpl;
    repeat case_bool_decide; try done; split; intros; try lia;
    intuition (congruence || lia).
Qed.

Lemma candidateOrder_total (a b : CourseRecord) : candidateOrder a b ∨ candidateOrder b a.
Proof.
  unfold candidateOrder. destruct (openSection a), (openSection b);
    destruct (Z.lt_trichotomy (rankedSeats a) (rankedSeats b)) as [? | [? | ?]];
    destruct (Z.le_ge_cases (earliestStart a) (earliestStart b));
    intuition (congruence || lia).
Qed.

Lemma candidateOrder_trans (a b c : CourseRecord) :
  candidateOrder a b → candidateOrder b c → candidateOrder a c.
Proof.
  unfold candidateOrder.
  destruct (openSection a), (openSection b), (openSection c);
    intuition (congruence || lia).
Qed.

Lemma StronglySorted_weaken {A} (R R' : A → A → Prop) (l : list A) :
  (∀ a b, R a b → R' a b) → StronglySorted R l → StronglySorted R' l.
Proof.
  intros HR. induction 1 as [| x l Hl IH Hx]; constructor; [done |].
  eapply List.Forall_impl; [| exact Hx]. intros b. apply HR.
Qed.

Lemma candidatesOf_StronglySorted (recs : list CourseRecord) (includeClosed : bool) (k : string) :
  StronglySorted candidateOrder (candidatesOf recs includeClosed k).
Proof.
  rewrite candidatesOf_sorted_filter.
  eapply StronglySorted_weaken; [| apply sort_StronglySorted].
  - intros a b. apply compareSections_le.
  - intros a b. rewrite !compareSections_le. apply candidateOrder_total.
  - intros a b c. rewrite !compareSections_le. apply candidateOrder_trans.
Qed.

Lemma StronglySorted_lookup_lt {A} (R : A → A → Prop) (l : list A) (i j : nat) (x y : A) :
  StronglySorted R l → (i < j)%nat → l !! i = Some x → l !! j = Some y → R x y.
Proof.
  intros Hl. revert i j. induction Hl as [| z l Hl IH Hz]; intros i j Hij Hi Hj.
  - by rewrite lookup_nil in Hi.
  - destruct j as [| j]; [lia |]. simpl in Hj. destruct i as [| i]; simpl in Hi.
    + simplify_eq. eapply Forall_forall; [exact Hz |].
      apply list_elem_of_lookup. by exists j.
    + apply (IH i j); [lia | done | done].
Qed.

Lemma elem_of_candidatesOf (recs : list CourseRecord) (includeClosed : bool) (k : string)
    (r : CourseRecord) :
  r ∈ candidatesOf recs includeClosed k ↔ r ∈ recs ∧ eligible includeClosed k r.
Proof.
  rewrite candidatesOf_sorted_filter, sort_Permutation, list_elem_of_filter. tauto.
Qed.

(** C4, as stated, fails: a section without a seat count is ranked as
    having -1 seats, which is ahead of an over-enrolled section whose count
    is below -1. *)
Lemma missingSeatsSortLast_counterexample : ¬ missingSeatsSortLast.
Proof.
  intros H.
  specialize (H [openOverEnrolled; openNoSeatCount] true introKey 0%nat 1%nat
                openNoSeatCount openOverEnrolled).
  assert (1 < 0)%nat; [| lia].
  apply H; [reflexivity | reflexivity | reflexivity | reflexivity | discriminate].
Qed.

(** C4 (amended). The candidate list of a title key holds exactly the
    eligible sections of that key and is ordered by the total preorder:
    open before closed; then more seats available first, a missing seat
    count ranking as -1; then the earlier minimal block start first, a
    section without blocks ranking as 99999.  Hence a section without a seat
    count comes after every section of the same openness with a count of 0
    or more, and a section without blocks after every section of the same
    openness and seats that starts before 99999.  The three sections open/5
    seats/start 900, closed/9 seats/start 800, open/3 seats/start 800 come
    out, closed included, as open/5/900, open/3/800, closed/9/800. *)
Theorem candidatesOf_ordered (recs : list CourseRecord) (includeClosed : bool) (k : string) :
  candidatesOf recs includeClosed k ≡ₚ filter (eligible includeClosed k) recs ∧
  StronglySorted candidateOrder (candidatesOf recs includeClosed k) ∧
  (∀ a b, candidateOrder a b ∨ candidateOrder b a) ∧
  (∀ a b c, candidateOrder a b → candidateOrder b c → candidateOrder a c) ∧
  (∀ i j x y s,
     candidatesOf recs includeClosed k !! i = Some x →
     candidatesOf recs includeClosed k !! j = Some y →
     openSection x = openSection y →
     seatsAvailable x = None → seatsAvailable y = Some s → 0 ≤ s →
     (j < i)%nat) ∧
  (∀ i j x y,
     candidatesOf recs includeClosed k !! i = Some x →
     candidatesOf recs includeClosed k !! j = Some y →
     openSection x = openSection y → rankedSeats x = rankedSeats y →
     blocksForSection x = [] → earliestStart y < 99999 →
     (j < i)%nat) ∧
  candidatesOf [open5at900; closed9at800; open3at800] true introKey
    = [open5at900; open3at800; closed9at800] ∧
  earliestStart <$> [open5at900; open3at800; closed9at800] = [900; 800; 800].
Proof.
  pose proof (candidatesOf_StronglySorted recs includeClosed k) as Hsorted.
  split_and!.
  - rewrite candidatesOf_sorted_filter. apply sort_Permutation.
  - done.
  - apply candidateOrder_total.
  - apply candidateOrder_trans.
  - intros i j x y s Hi Hj Hopen Hx Hy Hs.
    destruct (decide (j < i)%nat) as [| Hge]; [done | exfalso].
    assert (i ≠ j) by (intros ->; congruence).
    assert (candidateOrder x y) as Hxy.
    { apply (StronglySorted_lookup_lt _ _ i j x y Hsorted); [lia | done | done]. }
    unfold candidateOrder, rankedSeats in Hxy. rewrite Hx, Hy in Hxy. simpl in Hxy.
    destruct Hxy as [[? ?] | [_ [? | [? _]]]]; [congruence | lia | lia].
  - intros i j x y Hi Hj Hopen Hseats Hx Hy.
    destruct (decide (j < i)%nat) as [| Hge]; [done | exfalso].
    assert (earliestStart x = 99999) as Hstart.
    { unfold earliestStart. by rewrite Hx. }
    assert (i ≠ j) by (intros ->; simplify_eq; lia).
    assert (candidateOrder x y) as Hxy.
    { apply (StronglySorted_lookup_lt _ _ i j x y Hsorted); [lia | done | done]. }
    unfold candidateOrder in Hxy.
    destruct Hxy as [[? ?] | [_ [? | [_ ?]]]]; [congruence | lia | lia].
  - reflexivity.
  - reflexivity.
Qed.

Lemma candidatesOf_ordered_witness :
  candidatesOf [openNoSeatCount; open5at900] true introKey !! 1%nat = Some openNoSeatCount ∧
  candidatesOf [openNoSeatCount; open5at900] true introKey !! 0%nat = Some open5at900 ∧
  (0 < 1)%nat.
Proof.
  split_and!; [reflexivity | reflexivity |].
  refine (proj1 (proj2 (proj2 (proj2 (proj2
            (candidatesOf_ordered [openNoSeatCount; open5at900] true introKey)))))
          1%nat 0%nat openNoSeatCount open5at900 5 _ _ _ _ _ _).
  - reflexivity.
  - reflexivity.
  - reflexivity.
  - reflexivity.
  - reflexivity.
  - lia.
Defined.

(** ** Prerequisite graph: the traversal *)

Lemma pop_None (stack : list string) : pop stack = None → stack = [].
Proof.
  unfold pop. destruct (reverse stack) as [| cur below] eqn:Hrev; [| done].
  intros _. apply (f_equal reverse) in Hrev. by rewrite reverse_involutive in Hrev.
Qed.

Lemma pop_Some (stack stack' : list string) (cur : string) :
  pop stack = Some (cur, stack') → stack = stack' ++ [cur].
Proof.
  unfold pop. destruct (reverse stack) as [| c below] eqn:Hrev; [done |].
  intros [= -> <-]. apply (f_equal reverse) in Hrev.
  by rewrite reverse_involutive, reverse_cons in Hrev.
Qed.

Lemma set_add_fresh (out : list string) (cur : string) :
  Js.set_has out cur = false → Js.set_add out cur = out ++ [cur].
Proof. unfold Js.set_add. by intros ->. Qed.

Lemma unvisitedCost_mono (adj : Graph) (out : list string) (cur : string) :
  (unvisitedCost adj (Js.set_add out cur) ≤ unvisitedCost adj out)%nat.
Proof.
  unfold unvisitedCost. induction adj as [| [k l] adj IH]; csimpl; [lia |].
  destruct (Js.set_has out k) eqn:Hk.
  - assert (Js.set_has (Js.set_add out cur) k = true) as ->; [| lia].
    apply set_has_true, elem_of_set_add. left. by apply set_has_true.
  - destruct (Js.set_has (Js.set_add out cur) k); lia.
Qed.

Lemma unvisitedCost_visit (adj : Graph) (out l : list string) (cur : string) :
  Js.set_has out cur = false → Js.get adj cur = Some l →
  (unvisitedCost adj (Js.set_add out cur) + S (length l) ≤ unvisitedCost adj out)%nat.
Proof.
  intros Hcur. unfold unvisitedCost.
  induction adj as [| [k l0] adj IH]; csimpl; [done |].
  destruct (decide (k = cur)) as [-> | Hne]; intros Hget.
  - simplify_eq. rewrite Hcur.
    assert (Js.set_has (Js.set_add out cur) cur = true) as ->.
    { apply set_has_true, elem_of_set_add. by right. }
    pose proof (unvisitedCost_mono adj out cur) as Hmono. unfold unvisitedCost in Hmono. lia.
  - specialize (IH Hget).
    assert (Js.set_has (Js.set_add out cur) k = Js.set_has out k) as ->; [| lia].
    apply eq_true_iff_eq. rewrite !set_has_true, elem_of_set_add. intuition congruence.
Qed.

Lemma walk_enoughFuel (fuel : nat) (adj : Graph) (stack out : list string) :
  (enoughFuel adj stack out ≤ fuel)%nat → is_Some (walk fuel adj stack out).
Proof.
  revert stack out. induction fuel as [| fuel IH]; intros stack out Hfuel.
  - unfold enoughFuel in Hfuel. lia.
  - simpl. destruct (pop stack) as [[cur stack'] |] eqn:Hpop; [| done].
    apply pop_Some in Hpop as ->. unfold enoughFuel in *. rewrite length_app in Hfuel.
    simpl in Hfuel. destruct (Js.set_has out cur) eqn:Hcur.
    + apply IH. lia.
    + apply IH. rewrite length_app. unfold adjacent.
      destruct (Js.get adj cur) as [l |] eqn:Hget; simpl.
      * pose proof (unvisitedCost_visit adj out l cur Hcur Hget). lia.
      * pose proof (unvisitedCost_mono adj out cur). lia.
Qed.

Lemma walk_more_fuel (fuel fuel' : nat) (adj : Graph) (stack out r : list string) :
  walk fuel adj stack out = Some r → (fuel ≤ fuel')%nat → walk fuel' adj stack out = Some r.
Proof.
  revert fuel' stack out. induction fuel as [| fuel IH]; intros fuel' stack out; [done |].
  intros Hwalk Hle. destruct fuel' as [| fuel']; [lia |]. simpl in *.
  destruct (pop stack) as [[cur stack'] |]; [| done].
  destruct (Js.set_has out cur); apply IH; (done || lia).
Qed.

Lemma walk_NoDup (fuel : nat) (adj : Graph) (stack out r : list string) :
  walk fuel adj stack out = Some r → NoDup out → NoDup r.
Proof.
  revert stack out. induction fuel as [| fuel IH]; intros stack out; [done |]. simpl.
  destruct (pop stack) as [[cur stack'] |]; [| by intros [= ->]].
  destruct (Js.set_has out cur); intros Hwalk Hout.
  - by eapply IH.
  - eapply IH; [done |]. by apply NoDup_set_add.
Qed.

Lemma walk_result (fuel : nat) (adj : Graph) (stack out r : list string) :
  walk fuel adj stack out = Some r → frontierCovers adj stack out →
  (∀ v, v ∈ out → v ∈ r) ∧ (∀ v, v ∈ stack → v ∈ r) ∧
  (∀ u w, u ∈ r → edge adj u w → w ∈ r) ∧
  (∀ v, v ∈ r → v ∈ out ∨ reachableFrom adj stack v).
Proof.
  revert stack out. induction fuel as [| fuel IH]; intros stack out; [done |]. simpl.
  destruct (pop stack) as [[cur stack'] |] eqn:Hpop.
  - apply pop_Some in Hpop as ->. destruct (Js.set_has out cur) eqn:Hcur.
    + apply set_has_true in Hcur. intros Hwalk Hinv.
      destruct (IH stack' out Hwalk) as (Hout & Hstack & Hclosed & Hsound).
      { intros u w Hu Hw. destruct (Hinv u w Hu Hw) as [? | Hin]; [by left |].
        apply elem_of_app in Hin as [? | Hin]; [by right |].
        apply list_elem_of_singleton in Hin as ->. by left. }
      split_and!; [done | | done |].
      * intros v Hv. apply elem_of_app in Hv as [? | Hv]; [by apply Hstack |].
        apply list_elem_of_singleton in Hv as ->. by apply Hout.
      * intros v Hv. destruct (Hsound v Hv) as [? | (s & Hs & Hrtc)]; [by left | right].
        exists s. split; [| done]. apply elem_of_app. by left.
    + intros Hwalk Hinv. rewrite set_add_fresh in Hwalk by done.
      destruct (IH _ _ Hwalk) as (Hout & Hstack & Hclosed & Hsound).
      { intros u w Hu Hw. apply elem_of_app in Hu as [Hu | Hu].
        - destruct (Hinv u w Hu Hw) as [? | Hin].
          + left. apply elem_of_app. by left.
          + apply elem_of_app in Hin as [? | Hin].
            * right. apply elem_of_app. by left.
            * left. apply elem_of_app. by right.
        - apply list_elem_of_singleton in Hu as ->. right. apply elem_of_app. by right. }
      split_and!; [| | done |].
      * intros v Hv. apply Hout, elem_of_app. by left.
      * intros v Hv. apply elem_of_app in Hv as [Hv | Hv].
        -- apply Hstack, elem_of_app. by left.
        -- apply Hout, elem_of_app. by right.
      * intros v Hv. destruct (Hsound v Hv) as [Hin | (s & Hs & Hrtc)].
        -- apply elem_of_app in Hin as [? | Hin]; [by left | right].
           apply list_elem_of_singleton in Hin as ->.
           exists cur. split; [apply elem_of_app; right; by apply list_elem_of_singleton | done].
        -- right. apply elem_of_app in Hs as [Hs | Hs].
           ++ exists s. split; [apply elem_of_app; by left | done].
           ++ exists cur. split; [apply elem_of_app; right; by apply list_elem_of_singleton |].
              by eapply rtc_l.
  - apply pop_None in Hpop as ->. intros [= ->] Hinv. split_and!; [done | | |].
    + intros v Hv. by apply elem_of_nil in Hv.
    + intros u w Hu Hw. destruct (Hinv u w Hu Hw) as [? | Hin]; [done |].
      by apply elem_of_nil in Hin.
    + intros v Hv. by left.
Qed.

(** The traversal started on [srcs] with nothing visited: with enough fuel
    it ends, and what it returns is the duplicate-free list of the codes
    reachable from [srcs]. *)
Lemma walk_spec (fuel : nat) (adj : Graph) (srcs : list string) :
  (enoughFuel adj srcs [] ≤ fuel)%nat →
  ∃ r, walk fuel adj srcs [] = Some r ∧ NoDup r ∧ ∀ v, v ∈ r ↔ reachableFrom adj srcs v.
Proof.
  intros Hfuel. destruct (walk_enoughFuel fuel adj srcs [] Hfuel) as [r Hwalk].
  exists r. split; [done |]. split; [by eapply walk_NoDup, NoDup_nil_2 |].
  destruct (walk_result fuel adj srcs [] r Hwalk) as (_ & Hstack & Hclosed & Hsound).
  { intros u w Hu. by apply elem_of_nil in Hu. }
  intros v. split.
  - intros Hv. destruct (Hsound v Hv) as [Hnil | ?]; [by apply elem_of_nil in Hnil | done].
  - intros (s & Hs & Hrtc). apply Hstack in Hs.
    induction Hrtc as [| x y z Hxy _ IH]; [done |]. apply IH. by eapply Hclosed.
Qed.

(** ** Prerequisite graph: the reverse adjacency *)

Lemma adjacent_set (m : Graph) (k k' : string) (l : list string) :
  adjacent (Js.set m k l) k' = if decide (k = k') then l else adjacent m k'.
Proof. unfold adjacent. rewrite get_set. by case_decide. Qed.

Lemma adjacent_addDependent (course : string) (m : Graph) (r u v : string) :
  v ∈ adjacent (addDependent course m r) u ↔ v ∈ adjacent m u ∨ (v = course ∧ u = r).
Proof.
  unfold addDependent.
  set (m' := if Js.has m r then m else Js.set m r []).
  assert (∀ k, adjacent m' k = adjacent m k) as Hm'.
  { intros k. unfold m', Js.has. case_bool_decide as Hhas; [done |].
    rewrite adjacent_set. case_decide as Hk; [| done]. subst k.
    unfold adjacent. destruct (Js.get m r) eqn:Hget; [| done].
    exfalso. apply Hhas. by eexists. }
  rewrite adjacent_set. case_decide as Hk.
  - subst u. rewrite elem_of_set_add, Hm'. intuition congruence.
  - rewrite Hm'. intuition congruence.
Qed.

Lemma adjacent_addDependents (course : string) (reqs : list string) (m : Graph) (u v : string) :
  v ∈ adjacent (foldl (addDependent course) m reqs) u ↔
  v ∈ adjacent m u ∨ (v = course ∧ u ∈ reqs).
Proof.
  revert m. induction reqs as [| r reqs IH]; intros m; simpl.
  - rewrite elem_of_nil. tauto.
  - rewrite IH, adjacent_addDependent, elem_of_cons. intuition congruence.
Qed.

Lemma adjacent_dependents_fold (prereqMap m : Graph) (u v : string) :
  v ∈ adjacent (foldl (λ m entry, foldl (addDependent entry.1) m entry.2) m prereqMap) u ↔
  v ∈ adjacent m u ∨ ∃ reqs, (v, reqs) ∈ prereqMap ∧ u ∈ reqs.
Proof.
  revert m. induction prereqMap as [| [c reqs] prereqMap IH]; intros m; simpl.
  - split; [by left | intros [? | (reqs & Hin & _)]; [done | by apply elem_of_nil in Hin]].
  - rewrite IH, adjacent_addDependents. split.
    + intros [[? | [-> Hu]] | (reqs' & Hin & Hu)]; [by left | right .. ].
      * exists reqs. split; [apply elem_of_cons; by left | done].
      * exists reqs'. split; [apply elem_of_cons; by right | done].
    + intros [? | (reqs' & Hin & Hu)]; [by left; left |].
      apply elem_of_cons in Hin as [[= -> ->] | Hin]; [left; right; done |].
      right. by exists reqs'.
Qed.

Lemma elem_of_get_NoDup {V} (m : list (string * V)) (k : string) (v : V) :
  NoDup (Js.keys m) → (k, v) ∈ m → Js.get m k = Some v.
Proof.
  unfold Js.keys. induction m as [| [k0 v0] m IH]; simpl; intros Hnd Hin.
  - by apply elem_of_nil in Hin.
  - apply NoDup_cons in Hnd as [Hk0 Hnd].
    apply elem_of_cons in Hin as [[= -> ->] | Hin].
    + by rewrite decide_True.
    + rewrite decide_False; [by apply IH |].
      intros ->. apply Hk0. apply list_elem_of_fmap. by exists (k, v).
Qed.

(** On a map that has every key once, [dependentsAdj] is the transpose:
    [v] is a dependent of [u] exactly when [u] is a prerequisite of [v]. *)
Lemma dependentsAdj_transpose (prereqMap : Graph) (u v : string) :
  NoDup (Js.keys prereqMap) →
  v ∈ adjacent (dependentsAdj prereqMap) u ↔ u ∈ adjacent prereqMap v.
Proof.
  intros Hnd. unfold dependentsAdj. rewrite adjacent_dependents_fold. split.
  - intros [Hnil | (reqs & Hin & Hu)]; [by apply elem_of_nil in Hnil |].
    unfold adjacent. by rewrite (elem_of_get_NoDup _ _ _ Hnd Hin).
  - intros Hu. right. unfold adjacent in Hu.
    destruct (Js.get prereqMap v) as [reqs |] eqn:Hget; [| by apply elem_of_nil in Hu].
    exists reqs. split; [by apply get_Some_elem_of | done].
Qed.

Lemma rtc_transpose (prereqMap : Graph) (u v : string) :
  NoDup (Js.keys prereqMap) →
  rtc (edge (dependentsAdj prereqMap)) u v ↔ rtc (edge prereqMap) v u.
Proof.
  intros Hnd. split.
  - induction 1 as [| x y z Hxy _ IH]; [done |].
    eapply rtc_r; [exact IH |]. exact (proj1 (dependentsAdj_transpose _ _ _ Hnd) Hxy).
  - induction 1 as [| x y z Hxy _ IH]; [done |].
    eapply rtc_r; [exact IH |]. exact (proj2 (dependentsAdj_transpose _ _ _ Hnd) Hxy).
Qed.

Lemma elem_of_indirect (all direct : list string) (v : string) :
  v ∈ foldl Js.set_delete all direct ↔ v ∈ all ∧ v ∉ direct.
Proof.
  revert all. induction direct as [| d direct IH]; intros all; simpl.
  - rewrite elem_of_nil. tauto.
  - rewrite IH, elem_of_set_delete, not_elem_of_cons. tauto.
Qed.

Lemma noQuery_Some (q : string) : q ≠ EmptyString → noQuery (Some q) = false.
Proof. intros Hq. simpl. by apply bool_decide_eq_false_2. Qed.

(** ** Prerequisite graph: the four sets of a query *)

Lemma ancestors_spec (prereqMap : Graph) (q : string) (fuel : nat) :
  q ≠ EmptyString →
  (enoughFuel prereqMap (adjacent prereqMap q) [] ≤ fuel)%nat →
  ∃ all, allPrereqAncestors fuel prereqMap (Some q) = Some all ∧ NoDup all ∧
         ∀ v, v ∈ all ↔ reachableFrom prereqMap (adjacent prereqMap q) v.
Proof.
  intros Hq Hfuel. unfold allPrereqAncestors. rewrite noQuery_Some by done.
  by apply walk_spec.
Qed.

Lemma dependents_spec (prereqMap : Graph) (q : string) (fuel : nat) :
  q ≠ EmptyString →
  (enoughFuel (dependentsAdj prereqMap) (adjacent (dependentsAdj prereqMap) q) [] ≤ fuel)%nat →
  ∃ all, allDependents fuel prereqMap (Some q) = Some all ∧ NoDup all ∧
         ∀ v, v ∈ all ↔
              reachableFrom (dependentsAdj prereqMap) (adjacent (dependentsAdj prereqMap) q) v.
Proof.
  intros Hq Hfuel. unfold allDependents. rewrite noQuery_Some by done.
  by apply walk_spec.
Qed.

(** C6. For a prerequisite map and a queried code: the direct
    prerequisites are the adjacency of the code (nothing when the code is
    absent), the transitive ancestors are exactly the codes reachable from
    the direct prerequisites along requires-edges, the indirect ones are
    the ancestors that are not direct; and the same for dependents over the
    reverse adjacency.  With B requiring A and C requiring B, C has the
    direct prerequisite B and the indirect prerequisite A, and A has the
    direct dependent B and the indirect dependent C. *)
Theorem query_sets_exact (prereqMap : Graph) (q : string) (fuel : nat) :
  q ≠ EmptyString → NoDup (Js.keys prereqMap) →
  (queryFuel prereqMap (Some q) ≤ fuel)%nat →
  ∃ allP allD,
    allPrereqAncestors fuel prereqMap (Some q) = Some allP ∧
    allDependents fuel prereqMap (Some q) = Some allD ∧
    (∀ v, v ∈ directPrereqs prereqMap (Some q) ↔ v ∈ adjacent prereqMap q) ∧
    (Js.get prereqMap q = None → directPrereqs prereqMap (Some q) = []) ∧
    (∀ v, v ∈ allP ↔ ∃ d, d ∈ adjacent prereqMap q ∧ rtc (edge prereqMap) d v) ∧
    (∀ v, v ∈ indirectPrereqs allP (directPrereqs prereqMap (Some q)) ↔
          v ∈ allP ∧ v ∉ directPrereqs prereqMap (Some q)) ∧
    (∀ v, v ∈ directDependents prereqMap (Some q) ↔ q ∈ adjacent prereqMap v) ∧
    (∀ v, v ∈ allD ↔ ∃ d, q ∈ adjacent prereqMap d ∧ rtc (edge prereqMap) v d) ∧
    (∀ v, v ∈ indirectDependents allD (directDependents prereqMap (Some q)) ↔
          v ∈ allD ∧ v ∉ directDependents prereqMap (Some q)) ∧
    (directPrereqs chainPlan (Some "C") = ["B"] ∧
     allPrereqAncestors (queryFuel chainPlan (Some "C")) chainPlan (Some "C")
       = Some ["B"; "A"] ∧
     indirectPrereqs ["B"; "A"] ["B"] = ["A"] ∧
     directDependents chainPlan (Some "A") = ["B"] ∧
     allDependents (queryFuel chainPlan (Some "A")) chainPlan (Some "A")
       = Some ["B"; "C"] ∧
     indirectDependents ["B"; "C"] ["B"] = ["C"]).
Proof.
  intros Hq Hnd Hfuel. unfold queryFuel, hoveredAdjacent in Hfuel.
  destruct (ancestors_spec prereqMap q fuel Hq) as (allP & HallP & _ & HP); [lia |].
  destruct (dependents_spec prereqMap q fuel Hq) as (allD & HallD & _ & HD); [lia |].
  exists allP, allD. split_and!; [done | done | | | done | | | | | by vm_compute ..].
  - intros v. unfold directPrereqs. rewrite noQuery_Some by done. apply elem_of_set_of.
  - intros Hget. unfold directPrereqs. rewrite noQuery_Some by done. simpl.
    unfold adjacent. by rewrite Hget.
  - intros v. apply elem_of_indirect.
  - intros v. unfold directDependents. rewrite noQuery_Some by done.
    rewrite elem_of_set_of. simpl. exact (dependentsAdj_transpose _ _ _ Hnd).
  - intros v. rewrite HD. unfold reachableFrom. split.
    + intros (d & Hd & Hrtc). exists d. split.
      * exact (proj1 (dependentsAdj_transpose _ _ _ Hnd) Hd).
      * exact (proj1 (rtc_transpose _ _ _ Hnd) Hrtc).
    + intros (d & Hd & Hrtc). exists d. split.
      * exact (proj2 (dependentsAdj_transpose _ _ _ Hnd) Hd).
      * exact (proj2 (rtc_transpose _ _ _ Hnd) Hrtc).
  - intros v. apply elem_of_indirect.
Qed.

Lemma query_sets_exact_witness :
  ∃ allP allD,
    allPrereqAncestors 10 chainPlan (Some "C") = Some allP ∧
    allDependents 10 chainPlan (Some "C") = Some allD ∧
    (∀ v, v ∈ allP ↔ ∃ d, d ∈ adjacent chainPlan "C" ∧ rtc (edge chainPlan) d v).
Proof.
  destruct (query_sets_exact chainPlan "C" 10) as (allP & allD & HP & HD & _ & _ & Hall & _).
  - discriminate.
  - by_compute.
  - vm_compute. lia.
  - exists allP, allD. split_and!; [exact HP | exact HD | exact Hall].
Defined.

(** C7. On every prerequisite map, cyclic or not, both traversals end:
    from a bound on, every amount of fuel yields the same two lists, in
    which no code occurs twice and which hold every code reachable from
    the direct neighbours of the query.  When A and B require each other
    each traversal from A yields B and A, once each. *)
Theorem traversals_terminate (prereqMap : Graph) (hoveredCode : option string) :
  ∃ allP allD,
    (∀ fuel, (queryFuel prereqMap hoveredCode ≤ fuel)%nat →
             allPrereqAncestors fuel prereqMap hoveredCode = Some allP ∧
             allDependents fuel prereqMap hoveredCode = Some allD) ∧
    NoDup allP ∧ NoDup allD ∧
    (noQuery hoveredCode = false →
     (∀ v, v ∈ allP ↔
           reachableFrom prereqMap (hoveredAdjacent prereqMap hoveredCode) v) ∧
     (∀ v, v ∈ allD ↔
           reachableFrom (dependentsAdj prereqMap)
             (hoveredAdjacent (dependentsAdj prereqMap) hoveredCode) v)) ∧
    (allPrereqAncestors (queryFuel cyclicPlan (Some "A")) cyclicPlan (Some "A")
       = Some ["B"; "A"] ∧
     allDependents (queryFuel cyclicPlan (Some "A")) cyclicPlan (Some "A")
       = Some ["B"; "A"] ∧
     allPrereqAncestors (queryFuel cyclicPlan (Some "B")) cyclicPlan (Some "B")
       = Some ["A"; "B"] ∧
     allDependents (queryFuel cyclicPlan (Some "B")) cyclicPlan (Some "B")
       = Some ["A"; "B"]).
Proof.
  unfold allPrereqAncestors, allDependents, queryFuel.
  destruct (noQuery hoveredCode) eqn:Hno.
  - exists [], []. split_and!;
      [done | apply NoDup_nil_2 | apply NoDup_nil_2 | done | by vm_compute ..].
  - destruct (walk_spec _ prereqMap (hoveredAdjacent prereqMap hoveredCode) (Nat.le_refl _))
      as (allP & HallP & HndP & HP).
    destruct (walk_spec _ (dependentsAdj prereqMap)
                (hoveredAdjacent (dependentsAdj prereqMap) hoveredCode) (Nat.le_refl _))
      as (allD & HallD & HndD & HD).
    exists allP, allD. split_and!; [| done | done | done | by vm_compute ..].
    intros fuel Hfuel. split.
    + eapply walk_more_fuel; [exact HallP | lia].
    + eapply walk_more_fuel; [exact HallD | lia].
Qed.

(** C9. The traversals do not leave the queried code out: when [q] is
    reachable from one of its own direct prerequisites along requires-edges,
    [q] is among its own transitive ancestors, and among its own transitive
    dependents as well. *)
Theorem cycle_includes_query (prereqMap : Graph) (q : string) (fuel : nat) :
  q ≠ EmptyString → NoDup (Js.keys prereqMap) →
  (queryFuel prereqMap (Some q) ≤ fuel)%nat →
  (∃ d, d ∈ adjacent prereqMap q ∧ rtc (edge prereqMap) d q) →
  ∃ allP allD,
    allPrereqAncestors fuel prereqMap (Some q) = Some allP ∧
    allDependents fuel prereqMap (Some q) = Some allD ∧
    q ∈ allP ∧ q ∈ allD.
Proof.
  intros Hq Hnd Hfuel (d & Hd & Hrtc). unfold queryFuel, hoveredAdjacent in Hfuel.
  destruct (ancestors_spec prereqMap q fuel Hq) as (allP & HallP & _ & HP); [lia |].
  destruct (dependents_spec prereqMap q fuel Hq) as (allD & HallD & _ & HD); [lia |].
  exists allP, allD. split_and!; [done | done | |].
  - apply HP. by exists d.
  - apply HD. unfold reachableFrom.
    assert (edge (dependentsAdj prereqMap) d q) as Hdq.
    { exact (proj2 (dependentsAdj_transpose _ _ _ Hnd) Hd). }
    apply rtc_inv_r in Hrtc as [-> | (p & Hdp & Hpq)].
    + exists q. split; [exact Hdq | done].
    + exists p. split.
      * exact (proj2 (dependentsAdj_transpose _ _ _ Hnd) Hpq).
      * eapply rtc_r; [| exact Hdq]. exact (proj2 (rtc_transpose _ _ _ Hnd) Hdp).
Qed.

Lemma cycle_includes_query_witness :
  ∃ allP allD,
    allPrereqAncestors 10 cyclicPlan (Some "A") = Some allP ∧
    allDependents 10 cyclicPlan (Some "A") = Some allD ∧
    "A" ∈ allP ∧ "A" ∈ allD.
Proof.
  apply (cycle_includes_query cyclicPlan "A" 10).
  - discriminate.
  - by_compute.
  - vm_compute. lia.
  - exists "B". split.
    + by_compute.
    + apply rtc_once. unfold edge. by_compute.
Defined.

(** ** Manual override *)

Lemma find_first {A} (P : A → bool) (l : list A) (i : nat) (x : A) :
  l !! i = Some x → P x = true →
  (∀ j y, (j < i)%nat → l !! j = Some y → P y = false) →
  List.find P l = Some x.
Proof.
  revert i. induction l as [| z l IH]; intros i Hi Hx Hfirst; [by rewrite lookup_nil in Hi |].
  destruct i as [| i]; simpl in *.
  - simplify_eq. by rewrite Hx.
  - rewrite (Hfirst 0%nat z) by (done || lia).
    apply (IH i); [done | done |]. intros j y Hj Hy. apply (Hfirst (S j) y); [lia | done].
Qed.

Lemma find_absent {A} (P : A → bool) (l : list A) :
  (∀ x, x ∈ l → P x = false) → List.find P l = None.
Proof.
  induction l as [| z l IH]; intros Hno; simpl; [done |].
  rewrite (Hno z) by (apply elem_of_cons; by left).
  apply IH. intros x Hx. apply Hno, elem_of_cons. by right.
Qed.

(** C5, as stated, fails: the override looks the target up in the candidate
    list of the current filter, so with closed sections filtered out the
    identifier of a closed section of the title is not found. *)
Lemma overrideIgnoresFilter_counterexample : ¬ overrideIgnoresFilter.
Proof.
  intros H.
  specialize (H scheduledState introKey "10002" [(introKey, open5at900)] closed9at800
                eq_refl eq_refl).
  vm_compute in H. discriminate H.
Qed.

(** C5 (amended). The manual override looks the target identifier up in the
    candidate list of the title under the current closed-section filter.
    When there is no solution or no candidate carries the identifier the
    state stays as it is.  Otherwise the first candidate carrying it becomes
    the entry of that title, every other entry stays, and the conflict set
    is the conflict detector's result on the new assignment. *)
Theorem overrideSection_spec (st : AppState) (title c : string) :
  (∀ s, s ∈ candidatesOf (records st) (includeClosed st) title ↔
        s ∈ records st ∧ titleKey s = title ∧
        (includeClosed st = true ∨ openSection s = true)) ∧
  (solution st = None ∨
   (∀ s, s ∈ candidatesOf (records st) (includeClosed st) title →
         courseReferenceNumber s ≠ c) →
   overrideSection st title c = st) ∧
  (∀ sol i pick,
     solution st = Some sol →
     candidatesOf (records st) (includeClosed st) title !! i = Some pick →
     courseReferenceNumber pick = c →
     (∀ j s, (j < i)%nat →
             candidatesOf (records st) (includeClosed st) title !! j = Some s →
             courseReferenceNumber s ≠ c) →
     solution (overrideSection st title c) = Some (Js.set sol title pick) ∧
     Js.get (Js.set sol title pick) title = Some pick ∧
     (∀ t, t ≠ title → Js.get (Js.set sol title pick) t = Js.get sol t) ∧
     conflictCRNs (overrideSection st title c) = findConflicts (Js.set sol title pick) ∧
     records (overrideSection st title c) = records st ∧
     includeClosed (overrideSection st title c) = includeClosed st ∧
     selectedTitles (overrideSection st title c) = selectedTitles st).
Proof.
  split_and!.
  - intros s. apply elem_of_candidatesOf.
  - intros [Hnone | Habsent]; unfold overrideSection.
    + by rewrite Hnone.
    + destruct (solution st); [| done]. rewrite find_absent; [done |].
      intros s Hs. apply bool_decide_eq_false_2. by apply Habsent.
  - intros sol i pick Hsol Hi Hc Hfirst. unfold overrideSection. rewrite Hsol.
    rewrite (find_first _ _ i pick Hi).
    + simpl. split_and!; try done.
      * rewrite get_set. by rewrite decide_True.
      * intros t Ht. rewrite get_set. by rewrite decide_False.
    + by apply bool_decide_eq_true_2.
    + intros j s Hj Hs. apply bool_decide_eq_false_2. by eapply Hfirst.
Qed.

Lemma overrideSection_spec_witness :
  solution (overrideSection scheduledState introKey "10003")
    = Some (Js.set [(introKey, open5at900)] introKey open3at800) ∧
  overrideSection scheduledState introKey "10002" = scheduledState.
Proof.
  split.
  - refine (proj1 (proj2 (proj2 (overrideSection_spec scheduledState introKey "10003"))
                     [(introKey, open5at900)] 1%nat open3at800 _ _ _ _)).
    + reflexivity.
    + reflexivity.
    + reflexivity.
    + intros j s Hj Hs. destruct j as [| j]; [| lia].
      vm_compute in Hs. injection Hs as <-. discriminate.
  - refine (proj1 (proj2 (overrideSection_spec scheduledState introKey "10002")) _).
    right. intros s Hs.
    assert (candidatesOf (records scheduledState) (includeClosed scheduledState) introKey
            = [open5at900; open3at800]) as Hoptions by (vm_compute; reflexivity).
    rewrite Hoptions in Hs. rewrite !elem_of_cons in Hs.
    destruct Hs as [-> | [-> | Hs]]; [discriminate | discriminate | by apply elem_of_nil in Hs].
Defined.

(** ** Schedule solver *)

Lemma popBlock_snoc (l : list Block) (b : Block) : popBlock (l ++ [b]) = l.
Proof.
  unfold popBlock. rewrite length_app. simpl.
  replace (length l + 1 - 1)%nat with (length l) by lia. by rewrite take_app_length.
Qed.

Lemma popBlock_iter (l blocks : list Block) :
  Nat.iter (length blocks) popBlock (l ++ blocks) = l.
Proof.
  induction blocks as [| b blocks IH] using rev_ind; simpl.
  - by rewrite app_nil_r.
  - rewrite length_app. simpl. rewrite Nat.add_1_r. rewrite Nat.iter_succ_r.
    by rewrite app_assoc, popBlock_snoc.
Qed.

Lemma assign_cons (m : Assignment) (t : string) (titles : list string)
    (sec : CourseRecord) (secs : list CourseRecord) :
  assign m (t :: titles) (sec :: secs) = assign (Js.set m t sec) titles secs.
Proof. done. Qed.

(** The entries of the titles do not depend on the object the assignments
    are made to. *)
Lemma assign_agree (titles : list string) (secs : list CourseRecord) (m m' : Assignment) :
  length secs = length titles →
  (∀ k, k ∉ titles → Js.get m k = Js.get m' k) →
  ∀ k, Js.get (assign m titles secs) k = Js.get (assign m' titles secs) k.
Proof.
  revert secs m m'. induction titles as [| t titles IH]; intros secs m m' Hlen Hagree k.
  - destruct secs; [| done]. apply Hagree, not_elem_of_nil.
  - destruct secs as [| sec secs]; [done |]. rewrite !assign_cons.
    apply IH; [simpl in Hlen; lia |]. intros k' Hk'. rewrite !get_set.
    case_decide; [done |]. apply Hagree. rewrite not_elem_of_cons. split; [done | done].
Qed.

Lemma assign_lookup (titles : list string) (secs : list CourseRecord) (m : Assignment)
    (k : string) :
  length secs = length titles →
  ((k ∉ titles) ∧ Js.get (assign m titles secs) k = Js.get m k) ∨
  (∃ p sec, titles !! p = Some k ∧ secs !! p = Some sec ∧
            Js.get (assign m titles secs) k = Some sec).
Proof.
  revert secs m. induction titles as [| t titles IH]; intros secs m Hlen.
  - destruct secs; [| done]. left. split; [apply not_elem_of_nil | done].
  - destruct secs as [| sec secs]; [done |]. rewrite assign_cons.
    destruct (IH secs (Js.set m t sec)) as [[Hk Hget] | (p & sec' & Hp & Hsec & Hget)].
    + simpl in Hlen. lia.
    + rewrite Hget, get_set. destruct (decide (t = k)) as [-> | Hne].
      * right. by exists 0%nat, sec.
      * left. split; [| done]. rewrite not_elem_of_cons. split; [done | done].
    + right. by exists (S p), sec'.
Qed.

Section SolverFacts.
Variable sections : gmap string (list CourseRecord).

Lemma validPicks_length (titles : list string) (placed : list Block) (picks : list nat) :
  validPicks sections titles placed picks →
  length (pickedSections sections titles picks) = length titles.
Proof.
  revert placed picks. induction titles as [| t titles IH]; intros placed picks.
  - by destruct picks.
  - destruct picks as [| i picks]; [done |]. simpl.
    intros (sec & -> & _ & Hvalid). simpl. f_equal. by eapply IH.
Qed.

(** Each picked section is a candidate of its title, has blocks, and its
    blocks overlap neither the blocks placed before the search nor the
    blocks of a section picked at an earlier position. *)
Lemma validPicks_picked (titles : list string) (placed : list Block) (picks : list nat)
    (p : nat) (t : string) (sec : CourseRecord) :
  validPicks sections titles placed picks →
  titles !! p = Some t → pickedSections sections titles picks !! p = Some sec →
  sec ∈ default [] (sections !! t) ∧ blocksForSection sec ≠ [] ∧
  (∀ b c, b ∈ blocksForSection sec → c ∈ placed → overlap b c = false) ∧
  (∀ p' sec' b c, (p' < p)%nat →
     pickedSections sections titles picks !! p' = Some sec' →
     b ∈ blocksForSection sec → c ∈ blocksForSection sec' → overlap b c = false).
Proof.
  revert placed picks p. induction titles as [| t0 titles IH]; intros placed picks p.
  - by destruct picks.
  - destruct picks as [| i picks]; [done |]. simpl.
    intros (sec0 & Hi & [Hblocks Hfree] & Hvalid). rewrite Hi.
    destruct p as [| p]; simpl; intros Ht Hsec.
    + simplify_eq. split_and!; [| done | done |].
      * apply list_elem_of_lookup. by exists i.
      * intros p' sec' b c Hp'. lia.
    + destruct (IH _ _ _ Hvalid Ht Hsec) as (Hcand & Hne & Hplaced & Hearlier).
      split_and!; [done | done | |].
      * intros b c Hb Hc. apply Hplaced; [done |]. apply elem_of_app. by left.
      * intros p' sec' b c Hp' Hsec' Hb Hc. destruct p' as [| p']; simpl in Hsec'.
        -- simplify_eq. apply Hplaced; [done |]. apply elem_of_app. by right.
        -- apply (Hearlier p' sec'); [lia | done | done | done].
Qed.

Lemma tryCandidates_outcome (t : string) (rest : list string) :
  (∀ s, outcome sections rest s (dfs sections rest s)) →
  ∀ (later earlier : list CourseRecord) (s0 s : SolverState),
    default [] (sections !! t) = earlier ++ later →
    chosenBlocks s = chosenBlocks s0 →
    (∀ k, k ∉ t :: rest → Js.get (chosen s) k = Js.get (chosen s0) k) →
    (∀ i picks, (i < length earlier)%nat →
                ¬ validPicks sections (t :: rest) (chosenBlocks s0) (i :: picks)) →
    outcome sections (t :: rest) s0 (tryCandidates (dfs sections rest) t later s).
Proof.
  intros Hrest later.
  induction later as [| sec later IH]; intros earlier s0 s Hcands Hblocks Hchosen Hnone.
  - simpl. unfold outcome. simpl. split_and!; [| done | done].
    intros [| i picks] Hvalid; [done |]. pose proof Hvalid as (sec & Hi & _).
    apply (Hnone i picks); [| exact Hvalid].
    apply lookup_lt_Some in Hi. rewrite Hcands, app_nil_r in Hi. done.
  - assert (default [] (sections !! t) !! length earlier = Some sec) as Hsec.
    { rewrite Hcands. by rewrite list_lookup_middle. }
    assert (default [] (sections !! t) = (earlier ++ [sec]) ++ later) as Hcands'.
    { by rewrite <- app_assoc. }
    assert (∀ i picks, (i < length (earlier ++ [sec]))%nat →
              ¬ placeable (chosenBlocks s0) sec →
              ¬ validPicks sections (t :: rest) (chosenBlocks s0) (i :: picks)) as Hskip.
    { intros i picks Hi Hno. rewrite length_app in Hi. simpl in Hi.
      destruct (decide (i = length earlier)) as [-> | Hne].
      - simpl. rewrite Hsec. intros (sec' & [= <-] & Hplace & _). done.
      - apply Hnone. lia. }
    simpl. case_bool_decide as Hempty.
    { apply (IH (earlier ++ [sec])); [done | done | done |].
      intros i picks Hi. apply Hskip; [done |]. intros [Hne _].
      apply Hne. by apply length_zero_iff_nil. }
    destruct (isCompatible (chosenBlocks s) (blocksForSection sec)) eqn:Hcompat; cycle 1.
    { apply (IH (earlier ++ [sec])); [done | done | done |].
      intros i picks Hi. apply Hskip; [done |]. intros [_ Hfree].
      apply not_true_iff_false in Hcompat. apply Hcompat.
      rewrite isCompatible_true, Hblocks. done. }
    assert (placeable (chosenBlocks s0) sec) as Hplace.
    { split; [intros Hnil; apply Hempty; by rewrite Hnil |].
      rewrite <- Hblocks. by apply isCompatible_true. }
    pose proof (Hrest (place t sec (blocksForSection sec) s)) as Hnext.
    destruct (dfs sections rest (place t sec (blocksForSection sec) s)) as [ok s'].
    unfold outcome in Hnext. simpl in Hnext. rewrite Hblocks in Hnext.
    destruct ok.
    + destruct Hnext as (picks & Hvalid & Hmin & Hb' & Hc').
      unfold outcome. simpl. exists (length earlier :: picks).
      pose proof (validPicks_length _ _ _ Hvalid) as Hlen.
      simpl. rewrite Hsec. split_and!.
      * by exists sec.
      * intros [| i picks']; [done |]. intros Hvalid'.
        destruct (decide (i < length earlier)%nat) as [Hlt | Hge].
        { by apply Hnone in Hvalid'. }
        destruct (decide (i = length earlier)) as [-> | Hne].
        -- simpl in Hvalid'. rewrite Hsec in Hvalid'.
           destruct Hvalid' as (sec' & [= <-] & _ & Hvalid').
           apply lexLe_eq. by apply Hmin.
        -- apply lexLe_lt. lia.
      * rewrite Hb'. simpl. by rewrite <- app_assoc.
      * intros k. rewrite Hc', assign_cons. apply assign_agree; [done |].
        intros k' Hk'. rewrite !get_set. case_decide as Hkt; [done |].
        apply Hchosen. rewrite not_elem_of_cons. done.
    + destruct Hnext as (Hno & Hb' & Hc').
      apply (IH (earlier ++ [sec])); [done | | |].
      * simpl. rewrite Hb'. simpl. apply popBlock_iter.
      * intros k Hk. apply not_elem_of_cons in Hk as [Hkt Hkrest]. simpl.
        rewrite get_remove, decide_False by done.
        rewrite Hc' by done. rewrite get_set, decide_False by done.
        apply Hchosen. rewrite not_elem_of_cons. done.
      * intros i picks Hi. rewrite length_app in Hi. simpl in Hi.
        destruct (decide (i = length earlier)) as [-> | Hne]; [| apply Hnone; lia].
        simpl. rewrite Hsec. intros (sec' & [= <-] & _ & Hvalid). by apply Hno in Hvalid.
Qed.

Lemma dfs_outcome (titles : list string) (s : SolverState) :
  outcome sections titles s (dfs sections titles s).
Proof.
  revert s. induction titles as [| t rest IH]; intros s.
  - unfold outcome. simpl. exists []. split_and!; [done | | by rewrite app_nil_r | done].
    intros [| i picks']; [constructor | done].
  - simpl. apply (tryCandidates_outcome t rest IH _ []); [done | done | done |].
    intros i picks Hi. simpl in Hi. lia.
Qed.
End SolverFacts.

Lemma elem_of_keys_set {V} (m : list (string * V)) (k x : string) (v : V) :
  x ∈ Js.keys (Js.set m k v) ↔ x ∈ Js.keys m ∨ x = k.
Proof.
  unfold Js.keys. induction m as [| [k0 v0] m IH]; simpl.
  - rewrite list_elem_of_singleton, elem_of_nil. tauto.
  - case_decide as Hk; csimpl; rewrite !elem_of_cons.
    + subst k0. intuition congruence.
    + rewrite IH. tauto.
Qed.

Lemma NoDup_keys_set {V} (m : list (string * V)) (k : string) (v : V) :
  NoDup (Js.keys m) → NoDup (Js.keys (Js.set m k v)).
Proof.
  induction m as [| [k0 v0] m IH]; simpl; intros Hnd.
  - apply NoDup_singleton.
  - case_decide as Hk; [by subst k0 |].
    unfold Js.keys in *. csimpl in *. apply NoDup_cons in Hnd as [Hk0 Hnd].
    apply NoDup_cons. split; [| by apply IH].
    intros Hin. apply (elem_of_keys_set m k k0 v) in Hin as [? | ?]; [done | by subst].
Qed.

Lemma NoDup_keys_remove {V} (m : list (string * V)) (k : string) :
  NoDup (Js.keys m) → NoDup (Js.keys (Js.remove m k)).
Proof.
  unfold Js.keys, Js.remove. induction m as [| [k0 v0] m IH]; csimpl; [done |].
  intros [Hk0 Hnd]%NoDup_cons. rewrite filter_cons. case_decide; csimpl; [| by apply IH].
  apply NoDup_cons. split; [| by apply IH].
  intros (kv & -> & Hin)%list_elem_of_fmap. apply list_elem_of_filter in Hin as [_ Hin].
  apply Hk0. apply list_elem_of_fmap. by exists kv.
Qed.

Lemma tryCandidates_keys (next : SolverState → bool * SolverState) (t : string)
    (candidates : list CourseRecord) (s : SolverState) :
  (∀ s, NoDup (Js.keys (chosen s)) → NoDup (Js.keys (chosen (next s).2))) →
  NoDup (Js.keys (chosen s)) →
  NoDup (Js.keys (chosen (tryCandidates next t candidates s).2)).
Proof.
  intros Hnext. revert s. induction candidates as [| sec candidates IH]; intros s Hs; [done |].
  simpl. case_bool_decide; [by apply IH |].
  destruct (isCompatible (chosenBlocks s) (blocksForSection sec)); [| by apply IH].
  pose proof (Hnext (place t sec (blocksForSection sec) s)) as Hplaced.
  destruct (next (place t sec (blocksForSection sec) s)) as [[] s']; simpl in *.
  - apply Hplaced. by apply NoDup_keys_set.
  - apply IH. simpl. apply NoDup_keys_remove, Hplaced. by apply NoDup_keys_set.
Qed.

Lemma dfs_keys (sections : gmap string (list CourseRecord)) (titles : list string)
    (s : SolverState) :
  NoDup (Js.keys (chosen s)) → NoDup (Js.keys (chosen (dfs sections titles s).2)).
Proof.
  revert s. induction titles as [| t rest IH]; intros s Hs; [done |].
  simpl. by apply tryCandidates_keys.
Qed.

(** The two ways [generateSchedule] ends on a non-empty list of titles. *)
Lemma generateSchedule_solved (st : AppState) :
  targetsOf st ≠ [] →
  (solution (generateSchedule st) = None ∧
   status (generateSchedule st) = statusInfeasible ∧
   conflictCRNs (generateSchedule st) = [] ∧
   ∀ picks, ¬ validPicks (sectionsOf st) (targetsOf st) [] picks) ∨
  (∃ sol picks,
     solution (generateSchedule st) = Some sol ∧
     status (generateSchedule st) = statusGenerated ∧
     conflictCRNs (generateSchedule st) = findConflicts sol ∧
     NoDup (Js.keys sol) ∧
     validPicks (sectionsOf st) (targetsOf st) [] picks ∧
     (∀ picks', validPicks (sectionsOf st) (targetsOf st) [] picks' → lexLe picks picks') ∧
     ∀ t, Js.get sol t
          = Js.get (assign [] (targetsOf st)
                      (pickedSections (sectionsOf st) (targetsOf st) picks)) t).
Proof.
  intros Htargets. unfold generateSchedule. fold (sectionsOf st). fold (targetsOf st).
  rewrite bool_decide_eq_false_2 by (by rewrite length_zero_iff_nil).
  pose proof (dfs_outcome (sectionsOf st) (targetsOf st)
                {| chosenBlocks := []; chosen := [] |}) as Hout.
  pose proof (dfs_keys (sectionsOf st) (targetsOf st)
                {| chosenBlocks := []; chosen := [] |} (NoDup_nil_2)) as Hkeys.
  destruct (dfs (sectionsOf st) (targetsOf st) {| chosenBlocks := []; chosen := [] |})
    as [[] s']; unfold outcome in Hout; simpl in *.
  - destruct Hout as (picks & Hvalid & Hmin & _ & Hget). right.
    exists (chosen s'), picks. by split_and!.
  - destruct Hout as (Hno & _). left. by split_and!.
Qed.

Lemma generateSchedule_nothing (st : AppState) :
  targetsOf st = [] → solution (generateSchedule st) = None.
Proof.
  intros Htargets. unfold generateSchedule. fold (sectionsOf st). fold (targetsOf st).
  by rewrite Htargets.
Qed.

(** An entry of a generated schedule is the section picked at a position
    of its title. *)
Lemma assigned_is_picked (sections : gmap string (list CourseRecord))
    (titles : list string) (picks : list nat) (t : string) (sec : CourseRecord) :
  validPicks sections titles [] picks →
  Js.get (assign [] titles (pickedSections sections titles picks)) t = Some sec →
  ∃ p, titles !! p = Some t ∧ pickedSections sections titles picks !! p = Some sec.
Proof.
  intros Hvalid Hget. pose proof (validPicks_length _ _ _ _ Hvalid) as Hlen.
  destruct (assign_lookup titles _ [] t Hlen) as [[_ Hnone] | (p & sec' & Hp & Hsec & Hsome)].
  - rewrite Hnone in Hget. done.
  - exists p. split; [done |]. congruence.
Qed.

(** C2, as stated, fails: the solver tests a candidate against the blocks
    placed before it and never one block of a section against another
    block of the same section, so a section listing one hour twice is
    scheduled with two overlapping blocks. *)
Lemma scheduleBlocksDisjoint_counterexample : ¬ scheduleBlocksDisjoint.
Proof.
  intros H.
  specialize (H (selectedState [twiceOnMonday]) [(introKey, twiceOnMonday)] eq_refl
                0%nat 1%nat
                (mkBlock twiceOnMonday
                   {| beginTime := Some "0900"; endTime := Some "0950";
                      monday := true; tuesday := false; wednesday := false;
                      thursday := false; friday := false;
                      buildingDescription := None; room := None;
                      meetingScheduleType := None |} 540 590 Monday)
                (mkBlock twiceOnMonday
                   {| beginTime := Some "0900"; endTime := Some "0950";
                      monday := true; tuesday := false; wednesday := false;
                      thursday := false; friday := false;
                      buildingDescription := None; room := None;
                      meetingScheduleType := None |} 540 590 Monday)).
  assert (true = false) as Habsurd; [| discriminate Habsurd].
  apply H; [lia | reflexivity | reflexivity].
Qed.

(** C2 (amended). On a non-empty sequence of titles with candidates the
    solver ends in one of two ways.  Either it signals that no combination
    exists, leaves no solution behind, and indeed no run of picks is valid.
    Or it returns an assignment that has an entry exactly for the requested
    titles, each entry a candidate of its title, such that blocks of the
    sections of two different titles never overlap (blocks of one and the
    same section are not compared with each other); and this assignment is
    the one of the first valid run of picks in the order of depth-first
    search, titles in the given order and candidates in list order. *)
Theorem generateSchedule_spec (st : AppState) :
  targetsOf st ≠ [] →
  (solution (generateSchedule st) = None ∧
   status (generateSchedule st) = statusInfeasible ∧
   conflictCRNs (generateSchedule st) = [] ∧
   ∀ picks, ¬ validPicks (sectionsOf st) (targetsOf st) [] picks) ∨
  (∃ sol picks,
     solution (generateSchedule st) = Some sol ∧
     status (generateSchedule st) = statusGenerated ∧
     NoDup (Js.keys sol) ∧
     (∀ t, t ∈ targetsOf st ↔ is_Some (Js.get sol t)) ∧
     (∀ t sec, Js.get sol t = Some sec →
               sec ∈ candidatesOf (records st) (includeClosed st) t) ∧
     (∀ t1 t2 s1 s2 b1 b2,
        t1 ≠ t2 → Js.get sol t1 = Some s1 → Js.get sol t2 = Some s2 →
        b1 ∈ blocksForSection s1 → b2 ∈ blocksForSection s2 → overlap b1 b2 = false) ∧
     validPicks (sectionsOf st) (targetsOf st) [] picks ∧
     (∀ picks', validPicks (sectionsOf st) (targetsOf st) [] picks' → lexLe picks picks') ∧
     (∀ t, Js.get sol t
           = Js.get (assign [] (targetsOf st)
                       (pickedSections (sectionsOf st) (targetsOf st) picks)) t)).
Proof.
  intros Htargets.
  destruct (generateSchedule_solved st Htargets)
    as [? | (sol & picks & Hsol & Hstatus & _ & Hnd & Hvalid & Hmin & Hget)]; [by left | right].
  exists sol, picks. pose proof (validPicks_length _ _ _ _ Hvalid) as Hlen.
  split_and!; try done.
  - intros t. rewrite Hget.
    destruct (assign_lookup (targetsOf st) _ [] t Hlen)
      as [[Hnot Hnone] | (p & sec & Hp & _ & Hsome)].
    + rewrite Hnone. simpl. split; [done | by intros [? ?]].
    + rewrite Hsome. split; [by eexists |]. intros _. apply list_elem_of_lookup. by exists p.
  - intros t sec Ht. rewrite Hget in Ht.
    destruct (assigned_is_picked _ _ _ _ _ Hvalid Ht) as (p & Hp & Hsec).
    by destruct (validPicks_picked _ _ _ _ _ _ _ Hvalid Hp Hsec) as (Hcand & _).
  - intros t1 t2 s1 s2 b1 b2 Hne Ht1 Ht2 Hb1 Hb2. rewrite Hget in Ht1, Ht2.
    destruct (assigned_is_picked _ _ _ _ _ Hvalid Ht1) as (p1 & Hp1 & Hs1).
    destruct (assigned_is_picked _ _ _ _ _ Hvalid Ht2) as (p2 & Hp2 & Hs2).
    assert (p1 ≠ p2) by (intros ->; congruence).
    destruct (decide (p1 < p2)%nat).
    + destruct (validPicks_picked _ _ _ _ _ _ _ Hvalid Hp2 Hs2) as (_ & _ & _ & Hearlier).
      rewrite overlap_sym. apply (Hearlier p1 s1); [done | done | done | done].
    + destruct (validPicks_picked _ _ _ _ _ _ _ Hvalid Hp1 Hs1) as (_ & _ & _ & Hearlier).
      apply (Hearlier p2 s2); [lia | done | done | done].
Qed.

Lemma generateSchedule_spec_witness :
  ∃ sol, solution (generateSchedule loadedState) = Some sol ∧ NoDup (Js.keys sol) ∧
         ∀ t, t ∈ targetsOf loadedState ↔ is_Some (Js.get sol t).
Proof.
  destruct (generateSchedule_spec loadedState)
    as [(Hnone & _) | (sol & picks & Hsol & _ & Hnd & Hcover & _)].
  - vm_compute. discriminate.
  - vm_compute in Hnone. discriminate Hnone.
  - exists sol. split_and!; [exact Hsol | exact Hnd | exact Hcover].
Defined.




(** ** The map built from a study plan *)

Section PrereqMapFacts.
Variable toUpperCase : string → string.

Lemma addPrereq_keys (key : string) (reqs : list string) (out : Graph) :
  NoDup (Js.keys out) → NoDup (Js.keys (foldl (addPrereq toUpperCase key) out reqs)).
Proof.
  revert out. induction reqs as [| r reqs IH]; intros out Hout; simpl; [done |].
  apply IH. unfold addPrereq. by apply NoDup_keys_set.
Qed.

Lemma add_keys (out : Graph) (c : StudyPlanCourse) :
  NoDup (Js.keys out) → NoDup (Js.keys (add toUpperCase out c)).
Proof.
  intros Hout. unfold add. case_bool_decide; [done |].
  apply addPrereq_keys. destruct (Js.has out _); [done | by apply NoDup_keys_set].
Qed.

Lemma add_all_keys (cs : list StudyPlanCourse) (out : Graph) :
  NoDup (Js.keys out) → NoDup (Js.keys (foldl (add toUpperCase) out cs)).
Proof.
  revert out. induction cs as [| c cs IH]; intros out Hout; simpl; [done |].
  by apply IH, add_keys.
Qed.

(** Every map the component builds has each course once. *)
Lemma prereqMap_keys_NoDup (activePlan : option StudyPlan) :
  NoDup (Js.keys (prereqMap toUpperCase activePlan)).
Proof.
  destruct activePlan as [plan |]; simpl; [| apply NoDup_nil_2].
  apply add_all_keys, add_all_keys, NoDup_nil_2.
Qed.
End PrereqMapFacts.

Example prereqMap_chainStudyPlan : prereqMap asciiUpper (Some chainStudyPlan) = chainPlan.
Proof. reflexivity. Qed.

(** * Further properties of the component *)

(** ** Blocks and compatibility *)

Lemma block_of_section (rec : CourseRecord) (b : Block) :
  b ∈ blocksForSection rec →
  crn b = courseReferenceNumber rec ∧ title b = courseTitle rec ∧ open b = openSection rec.
Proof.
  intros (m & mt & s & e & d & _ & _ & _ & _ & _ & ->)%elem_of_blocksForSection. done.
Qed.

Lemma elem_of_flattenedBlocks (sol : Assignment) (b : Block) :
  b ∈ flattenedBlocks sol ↔ ∃ t sec, (t, sec) ∈ sol ∧ b ∈ blocksForSection sec.
Proof.
  unfold flattenedBlocks, Js.values. rewrite list_elem_of_bind. split.
  - intros (sec & Hb & Hsec). apply list_elem_of_fmap in Hsec as ([t sec'] & -> & Hin).
    by exists t, sec'.
  - intros (t & sec & Hin & Hb). exists sec. split; [done |].
    apply list_elem_of_fmap. by exists (t, sec).
Qed.

(** Every identifier the conflict detector reports is the identifier of an
    assigned section that has blocks. *)
Theorem findConflicts_assigned (sol : Assignment) (c : string) :
  c ∈ findConflicts sol →
  ∃ t sec, (t, sec) ∈ sol ∧ courseReferenceNumber sec = c ∧ blocksForSection sec ≠ [].
Proof.
  unfold findConflicts. rewrite conflictsOfBlocks_spec.
  intros [Hnil | (i & j & a & b & _ & Ha & Hb & _ & Hc)]; [by apply elem_of_nil in Hnil |].
  assert (∃ x, x ∈ flattenedBlocks sol ∧ c = crn x) as (x & Hx & ->).
  { destruct Hc as [-> | ->]; [exists a | exists b]; (split; [| done]);
      apply list_elem_of_lookup; eauto. }
  apply elem_of_flattenedBlocks in Hx as (t & sec & Hin & Hx).
  exists t, sec. split_and!; [done | | ].
  - by destruct (block_of_section _ _ Hx) as (-> & _).
  - intros Hnil. rewrite Hnil in Hx. by apply elem_of_nil in Hx.
Qed.

Lemma findConflicts_assigned_witness :
  ∃ t sec, (t, sec) ∈ [(introKey, twiceOnMonday)] ∧
           courseReferenceNumber sec = "10006" ∧ blocksForSection sec ≠ [].
Proof.
  apply (findConflicts_assigned [(introKey, twiceOnMonday)] "10006").
  by_compute.
Defined.

(** The compatibility test does not depend on which of the two block lists
    is the chosen one, and it splits over concatenation on either side: the
    blocks the solver has pushed so far can be tested section by section. *)
Theorem isCompatible_compose (xs ys zs : list Block) :
  isCompatible xs ys = isCompatible ys xs ∧
  isCompatible (xs ++ ys) zs = isCompatible xs zs && isCompatible ys zs ∧
  isCompatible xs (ys ++ zs) = isCompatible xs ys && isCompatible xs zs.
Proof.
  assert (∀ us vs, isCompatible us vs = isCompatible vs us) as Hsym.
  { intros us vs. apply eq_true_iff_eq. rewrite !isCompatible_true.
    split; intros H b c Hb Hc; rewrite overlap_sym; by apply H. }
  assert (∀ us vs ws, isCompatible us (vs ++ ws) = isCompatible us vs && isCompatible us ws)
    as Happ.
  { intros us vs ws. unfold isCompatible. apply forallb_app. }
  split_and!; [apply Hsym | | apply Happ].
  rewrite Hsym, Happ. by rewrite (Hsym zs xs), (Hsym zs ys).
Qed.

(** The blocks of one meeting entry lie on different days. *)
Lemma blocksForMeeting_days (rec : CourseRecord) (m : MeetingRecord) :
  NoDup (day <$> blocksForMeeting rec m).
Proof.
  unfold blocksForMeeting. destruct (meetingTime m) as [mt |]; [| apply NoDup_nil_2].
  destruct (timeStrToMinutes (beginTime mt)) as [s |]; [| apply NoDup_nil_2].
  destruct (timeStrToMinutes (endTime mt)) as [e |]; [| apply NoDup_nil_2].
  assert (∀ l, day <$> (mkBlock rec mt s e <$> l) = l) as ->.
  { intros l. induction l as [| d l IH]; csimpl; [done | by rewrite IH]. }
  apply NoDup_filter. unfold DAYS. by_compute.
Qed.

Lemma NoDup_fmap_lookup_ne {A B} (f : A → B) (l : list A) (i j : nat) (x y : A) :
  NoDup (f <$> l) → i ≠ j → l !! i = Some x → l !! j = Some y → f x ≠ f y.
Proof.
  intros Hnd Hij Hi Hj Heq. apply Hij.
  eapply NoDup_lookup; [exact Hnd | |].
  - rewrite list_lookup_fmap, Hi. done.
  - rewrite list_lookup_fmap, Hj. simpl. by rewrite Heq.
Qed.

(** A section with at most one meeting entry never conflicts with itself:
    no two of its blocks overlap, whatever its times are. *)
Theorem single_meeting_no_self_conflict (rec : CourseRecord) (i j : nat) (a b : Block) :
  (length (meetingsFaculty rec) ≤ 1)%nat →
  i ≠ j → blocksForSection rec !! i = Some a → blocksForSection rec !! j = Some b →
  overlap a b = false.
Proof.
  intros Hlen Hij Ha Hb. unfold blocksForSection in *.
  destruct (meetingsFaculty rec) as [| m [| m' ms]]; simpl in *; [done | | lia].
  rewrite app_nil_r in Ha, Hb.
  pose proof (NoDup_fmap_lookup_ne day _ i j a b (blocksForMeeting_days rec m) Hij Ha Hb).
  apply not_true_iff_false. rewrite overlap_true. tauto.
Qed.

Lemma single_meeting_no_self_conflict_witness :
  overlap
    (mkBlock open5at900
       {| beginTime := Some "1500"; endTime := Some "1550";
          monday := true; tuesday := false; wednesday := true;
          thursday := false; friday := false;
          buildingDescription := None; room := None; meetingScheduleType := None |}
       900 950 Monday)
    (mkBlock open5at900
       {| beginTime := Some "1500"; endTime := Some "1550";
          monday := true; tuesday := false; wednesday := true;
          thursday := false; friday := false;
          buildingDescription := None; room := None; meetingScheduleType := None |}
       900 950 Wednesday) = false.
Proof.
  apply (single_meeting_no_self_conflict open5at900 0 1).
  - simpl. lia.
  - lia.
  - reflexivity.
  - reflexivity.
Defined.

(** ** Titles, the course index and the selection *)

Lemma candidatesOf_nonempty (recs : list CourseRecord) (includeClosed : bool) (t : string) :
  candidatesOf recs includeClosed t ≠ [] ↔ ∃ r, r ∈ recs ∧ eligible includeClosed t r.
Proof.
  split.
  - intros Hne. destruct (candidatesOf recs includeClosed t) as [| r l] eqn:Hc; [done |].
    exists r. apply elem_of_candidatesOf. rewrite Hc. apply elem_of_cons. by left.
  - intros (r & Hr) Hnil. apply elem_of_candidatesOf in Hr. rewrite Hnil in Hr.
    by apply elem_of_nil in Hr.
Qed.

(** The list of titles offered for selection has no title twice, and a
    title is on it exactly when its candidate list under the current filter
    is not empty; so is every key of [titleToSections]. *)
Theorem titles_schedulable (localeCompare : string → string → Z)
    (recs : list CourseRecord) (includeClosed : bool) :
  NoDup (titles localeCompare recs includeClosed) ∧
  (∀ t, t ∈ titles localeCompare recs includeClosed ↔
        candidatesOf recs includeClosed t ≠ []) ∧
  (∀ t, is_Some (titleToSections recs includeClosed !! t) ↔
        t ∈ titles localeCompare recs includeClosed).
Proof.
  assert (∀ t, t ∈ titles localeCompare recs includeClosed ↔
               ∃ r, r ∈ recs ∧ eligible includeClosed t r) as Htitles.
  { intros t. unfold titles. rewrite sort_Permutation, elem_of_set_of, list_elem_of_fmap.
    split.
    - intros (r & -> & Hr). apply list_elem_of_filter in Hr as [Hkeep Hr].
      exists r. split; [done |]. split; [done |]. by apply orb_true_iff in Hkeep.
    - intros (r & Hr & Hkey & Hkeep). exists r. split; [done |].
      apply list_elem_of_filter. split; [| done]. by apply orb_true_iff. }
  split_and!.
  - unfold titles. rewrite sort_Permutation. apply NoDup_set_of.
  - intros t. by rewrite Htitles, candidatesOf_nonempty.
  - intros t. rewrite Htitles, titleToSections_lookup.
    destruct (filter (eligible includeClosed t) recs) as [| r l] eqn:Hf.
    + split; [by intros [? ?] |]. intros (r & Hr & Hel).
      assert (r ∈ filter (eligible includeClosed t) recs) as Hin
        by (by apply list_elem_of_filter).
      rewrite Hf in Hin. by apply elem_of_nil in Hin.
    + split; [| by eexists]. intros _.
      assert (r ∈ filter (eligible includeClosed t) recs) as Hin
        by (rewrite Hf; apply elem_of_cons; by left).
      apply list_elem_of_filter in Hin as [? ?]. by exists r.
Qed.

Section CourseIndexFacts.
Variable toUpperCase : string → string.

Lemma codeToInfo_snoc (recs : list CourseRecord) (r : CourseRecord) :
  codeToInfo toUpperCase (recs ++ [r])
  = countRecord toUpperCase (codeToInfo toUpperCase recs) r.
Proof. unfold codeToInfo. by rewrite foldl_app. Qed.

(** The index entry of a course code counts the sections of that code, all
    and open ones, and carries the title key of the last of them; a code
    without section has no entry. *)
Theorem codeToInfo_counts (recs : list CourseRecord) (code : string) :
  match Js.get (codeToInfo toUpperCase recs) code with
  | None => sectionsOfCode toUpperCase recs code = []
  | Some info =>
      total info = Z.of_nat (length (sectionsOfCode toUpperCase recs code)) ∧
      info_open info
        = Z.of_nat (length (filter (λ r, openSection r = true) (sectionsOfCode toUpperCase recs code))) ∧
      (∃ r, last (sectionsOfCode toUpperCase recs code) = Some r ∧ info_title info = titleKey r) ∧
      0 ≤ info_open info ≤ total info ∧ 1 ≤ total info
  end.
Proof.
  unfold sectionsOfCode. induction recs as [| r recs IH] using rev_ind; [done |].
  rewrite codeToInfo_snoc. unfold countRecord at 1. rewrite get_set, !filter_app.
  rewrite !filter_cons, !filter_nil.
  destruct (decide (courseCodeOf toUpperCase r = code)) as [Hcode | Hcode].
  - subst code. rewrite last_snoc, !length_app, filter_cons, filter_nil.
    destruct (Js.get (codeToInfo toUpperCase recs) (courseCodeOf toUpperCase r))
      as [info |]; simpl.
    + destruct IH as (Htotal & Hopen & _ & Hle & Hpos).
      destruct (openSection r); simpl;
        (split_and!; [lia | lia | by eexists | lia | lia | lia]).
    + rewrite IH. simpl.
      destruct (openSection r); simpl;
        (split_and!; [lia | lia | by eexists | lia | lia | lia]).
  - rewrite !app_nil_r. exact IH.
Qed.

Lemma elem_of_toggleTitle (prev : list string) (t x : string) :
  x ∈ toggleTitle prev t ↔ (x ≠ t ∧ x ∈ prev) ∨ (x = t ∧ t ∉ prev).
Proof.
  unfold toggleTitle. case_bool_decide as Hin.
  - rewrite list_elem_of_filter. split; [by left | intros [? | [_ ?]]; done].
  - rewrite elem_of_app, list_elem_of_singleton. split.
    + intros [Hx | ->]; [left | by right]. split; [by intros -> | done].
    + intros [[_ ?] | [-> _]]; [by left | by right].
Qed.

Lemma NoDup_toggleTitle (prev : list string) (t : string) :
  NoDup prev → NoDup (toggleTitle prev t).
Proof.
  intros Hnd. unfold toggleTitle. case_bool_decide as Hin; [by apply NoDup_filter |].
  apply NoDup_app. split_and!; [done | | apply NoDup_singleton].
  intros x Hx ->%list_elem_of_singleton. done.
Qed.

(** Toggling a course by its code does nothing when the code is not in the
    catalogue or has no candidate under the current filter; otherwise it
    flips whether the course is selected, leaves every other title as it
    is, and discards the solution and the conflict set. *)
Theorem toggleSelectByCode_flips (st : AppState) (codeRaw : string) :
  match Js.get (codeToInfo toUpperCase (records st)) (normalize toUpperCase codeRaw) with
  | None => toggleSelectByCode toUpperCase st codeRaw = st
  | Some info =>
      if bool_decide (candidatesOf (records st) (includeClosed st) (info_title info) = [])
      then toggleSelectByCode toUpperCase st codeRaw = st
      else
        isSelectedByCode toUpperCase (toggleSelectByCode toUpperCase st codeRaw) codeRaw
          = negb (isSelectedByCode toUpperCase st codeRaw) ∧
        (∀ x, x ≠ info_title info →
              x ∈ selectedTitles (toggleSelectByCode toUpperCase st codeRaw) ↔
              x ∈ selectedTitles st) ∧
        solution (toggleSelectByCode toUpperCase st codeRaw) = None ∧
        conflictCRNs (toggleSelectByCode toUpperCase st codeRaw) = [] ∧
        records (toggleSelectByCode toUpperCase st codeRaw) = records st
  end.
Proof.
  unfold toggleSelectByCode, isSelectedByCode.
  destruct (Js.get (codeToInfo toUpperCase (records st)) (normalize toUpperCase codeRaw))
    as [info |] eqn:Hinfo; [| done].
  case_bool_decide as Hnil.
  - rewrite Hnil. simpl. done.
  - rewrite bool_decide_eq_false_2 by (by rewrite length_zero_iff_nil).
    simpl. rewrite Hinfo. split_and!; [| | done | done | done].
    + apply eq_true_iff_eq. rewrite negb_true_iff, bool_decide_eq_true, bool_decide_eq_false.
      rewrite elem_of_toggleTitle. tauto.
    + intros x Hx. rewrite elem_of_toggleTitle. tauto.
Qed.
End CourseIndexFacts.

(** ** The states the component reaches *)

Lemma withSelection_consistent (st : AppState) (selected : list string) (msg : string) :
  NoDup selected → consistent (withSelection st selected msg).
Proof. intros Hnd. split; [done |]. intros sol Hsol. discriminate Hsol. Qed.

Lemma generateSchedule_consistent (st : AppState) :
  consistent st → consistent (generateSchedule st).
Proof.
  intros [Hnd _]. unfold generateSchedule. case_bool_decide.
  { split; [done |]. intros sol Hsol. discriminate Hsol. }
  pose proof (dfs_keys (titleToSections (records st) (includeClosed st))
                (targetTitles (titleToSections (records st) (includeClosed st))
                   (selectedTitles st))
                {| chosenBlocks := []; chosen := [] |} (NoDup_nil_2)) as Hkeys.
  destruct (dfs _ _ _) as [[] s']; simpl in *.
  - split; [done |]. intros sol [= <-]. done.
  - split; [done |]. intros sol Hsol. discriminate Hsol.
Qed.

Lemma overrideSection_consistent (st : AppState) (title c : string) :
  consistent st → consistent (overrideSection st title c).
Proof.
  intros [Hnd Hsol]. unfold overrideSection.
  destruct (solution st) as [sol |] eqn:Hs; [| by split; [| rewrite Hs]].
  destruct (List.find _ _) as [pick |]; [| by split; [| rewrite Hs]].
  split; [done |]. simpl. intros sol' [= <-]. split; [done |].
  apply NoDup_keys_set. by destruct (Hsol sol eq_refl).
Qed.

(** Every event keeps the state consistent; so every state reached from a
    consistent one, and in particular from the initial state, has no title
    selected twice and shows as conflicts exactly what the conflict
    detector finds in the solution it shows. *)
Theorem run_consistent (toUpperCase : string → string) (st : AppState)
    (events : list Event) :
  consistent st → consistent (run toUpperCase st events).
Proof.
  revert st. induction events as [| ev events IH]; intros st Hst; [done |].
  simpl. apply IH. destruct ev as [raw | b | t | t | | codeRaw | | title c]; simpl.
  - unfold ingestJson. case_bool_decide; [exact Hst |].
    destruct Hst as [Hnd _]. split; [done |]. intros sol Hsol. discriminate Hsol.
  - exact Hst.
  - apply withSelection_consistent, NoDup_toggleTitle. by destruct Hst.
  - apply withSelection_consistent, NoDup_filter. by destruct Hst.
  - apply withSelection_consistent, NoDup_nil_2.
  - unfold toggleSelectByCode. destruct (Js.get _ _) as [info |]; [| done].
    case_bool_decide; [done |].
    apply withSelection_consistent, NoDup_toggleTitle. by destruct Hst.
  - by apply generateSchedule_consistent.
  - by apply overrideSection_consistent.
Qed.

Lemma run_consistent_witness :
  consistent
    (run asciiUpper initialState
       [Upload (RawArray [twiceOnMonday]); ToggleByCode "cs 101"; Generate;
        Override introKey "10006"]).
Proof.
  apply run_consistent. split; [apply NoDup_nil_2 |]. intros sol Hsol. discriminate Hsol.
Defined.

(** ** The solver on a selection without repetition *)

Lemma set_fresh {V} (m : list (string * V)) (k : string) (v : V) :
  k ∉ Js.keys m → Js.set m k v = m ++ [(k, v)].
Proof.
  unfold Js.keys. induction m as [| [k0 v0] m IH]; csimpl; intros Hk; [done |].
  apply not_elem_of_cons in Hk as [Hne Hk]. rewrite decide_False by done.
  by rewrite IH.
Qed.

Lemma remove_fresh {V} (m : list (string * V)) (k : string) :
  k ∉ Js.keys m → Js.remove m k = m.
Proof.
  unfold Js.keys, Js.remove. induction m as [| [k0 v0] m IH]; csimpl; intros Hk; [done |].
  apply not_elem_of_cons in Hk as [Hne Hk]. rewrite filter_cons. simpl.
  rewrite decide_True by done. by rewrite IH.
Qed.

Lemma remove_snoc {V} (m : list (string * V)) (k : string) (v : V) :
  k ∉ Js.keys m → Js.remove (m ++ [(k, v)]) k = m.
Proof.
  intros Hk. unfold Js.remove. rewrite filter_app. fold (Js.remove m k).
  rewrite remove_fresh by done. rewrite filter_cons. simpl.
  rewrite decide_False by (by intros ?). by rewrite filter_nil, app_nil_r.
Qed.

Section SolverOrder.
Variable sections : gmap string (list CourseRecord).

Lemma tryCandidates_appended (t : string) (rest : list string) :
  (∀ s, (∀ x, x ∈ rest → x ∉ Js.keys (chosen s)) → appended rest s (dfs sections rest s)) →
  t ∉ rest →
  ∀ (candidates : list CourseRecord) (s0 s : SolverState),
    chosen s = chosen s0 →
    (∀ x, x ∈ t :: rest → x ∉ Js.keys (chosen s0)) →
    appended (t :: rest) s0 (tryCandidates (dfs sections rest) t candidates s).
Proof.
  intros Hrest Ht candidates.
  induction candidates as [| sec candidates IH]; intros s0 s Hs Hfresh; simpl.
  - unfold appended. simpl. done.
  - case_bool_decide; [by apply IH |].
    destruct (isCompatible (chosenBlocks s) (blocksForSection sec)); [| by apply IH].
    assert (chosen (place t sec (blocksForSection sec) s) = chosen s0 ++ [(t, sec)]) as Hplaced.
    { simpl. rewrite Hs. apply set_fresh, Hfresh, elem_of_cons. by left. }
    pose proof (Hrest (place t sec (blocksForSection sec) s)) as Hnext.
    destruct (dfs sections rest (place t sec (blocksForSection sec) s)) as [ok s'].
    unfold appended in Hnext. cbn [fst snd] in Hnext. rewrite Hplaced in Hnext.
    assert (∀ x, x ∈ rest → x ∉ Js.keys (chosen s0 ++ [(t, sec)])) as Hfresh'.
    { intros x Hx. unfold Js.keys. rewrite fmap_app, not_elem_of_app. split.
      - apply Hfresh, elem_of_cons. by right.
      - simpl. rewrite list_elem_of_singleton. by intros ->. }
    specialize (Hnext Hfresh'). destruct ok.
    + destruct Hnext as (secs & Hlen & Hchosen). unfold appended. simpl.
      exists (sec :: secs). split; [simpl; by rewrite Hlen |].
      rewrite Hchosen. simpl. by rewrite <- app_assoc.
    + apply IH; [| done]. simpl. rewrite Hnext. apply remove_snoc, Hfresh, elem_of_cons.
      by left.
Qed.

Lemma dfs_appended (titles : list string) (s : SolverState) :
  NoDup titles → (∀ x, x ∈ titles → x ∉ Js.keys (chosen s)) →
  appended titles s (dfs sections titles s).
Proof.
  intros Hnd. revert s. induction Hnd as [| t rest Ht Hnd IH]; intros s Hfresh.
  - unfold appended. simpl. exists []. by rewrite app_nil_r.
  - simpl. apply tryCandidates_appended; [| done | done | done].
    intros s' Hfresh'. by apply IH.
Qed.
End SolverOrder.

(** When no title is selected twice, a generated schedule lists the
    requested titles that have candidates in the order of the selection,
    each once: the entries are those titles paired with the sections
    chosen. *)
Theorem generateSchedule_order (st : AppState) (sol : Assignment) :
  NoDup (selectedTitles st) →
  solution (generateSchedule st) = Some sol →
  Js.keys sol = targetsOf st ∧
  ∃ secs, length secs = length (targetsOf st) ∧ sol = zip (targetsOf st) secs.
Proof.
  intros Hnd. unfold generateSchedule. fold (sectionsOf st). fold (targetsOf st).
  case_bool_decide; [done |].
  pose proof (dfs_appended (sectionsOf st) (targetsOf st)
                {| chosenBlocks := []; chosen := [] |}) as Happ.
  destruct (dfs (sectionsOf st) (targetsOf st) {| chosenBlocks := []; chosen := [] |})
    as [[] s']; [| done].
  simpl. intros [= <-]. unfold appended in Happ. simpl in Happ.
  destruct Happ as (secs & Hlen & Hchosen).
  - unfold targetsOf, targetTitles. by apply NoDup_filter.
  - intros x _. apply not_elem_of_nil.
  - rewrite Hchosen. split; [| by exists secs].
    unfold Js.keys. apply fst_zip. lia.
Qed.

Lemma generateSchedule_order_witness :
  Js.keys [(introKey, open5at900)] = targetsOf loadedState ∧
  ∃ secs, length secs = length (targetsOf loadedState) ∧
          [(introKey, open5at900)] = zip (targetsOf loadedState) secs.
Proof.
  apply (generateSchedule_order loadedState [(introKey, open5at900)]).
  - by_compute.
  - reflexivity.
Defined.

(** ** Conflicts of a generated schedule *)

Lemma conflictingPair_nil (c : string) : ¬ conflictingPair [] c.
Proof. intros (i & j & a & b & _ & Ha & _). by rewrite lookup_nil in Ha. Qed.

Lemma conflictingPair_app (l1 l2 : list Block) (c : string) :
  conflictingPair (l1 ++ l2) c ↔
  conflictingPair l1 c ∨ conflictingPair l2 c ∨
  ∃ a b, a ∈ l1 ∧ b ∈ l2 ∧ overlap a b = true ∧ (c = crn a ∨ c = crn b).
Proof.
  induction l1 as [| x l1 IH]; simpl.
  - split; [by right; left |]. intros [H | [H | (a & b & Ha & _)]]; [| done |].
    + by apply conflictingPair_nil in H.
    + by apply elem_of_nil in Ha.
  - rewrite !conflictingPair_cons, IH. split.
    + intros [(bj & Hbj & Hov & Hc) | [H | [H | (a & b & Ha & Hb & Hov & Hc)]]].
      * apply elem_of_app in Hbj as [Hbj | Hbj].
        -- left. left. by exists bj.
        -- right. right. exists x, bj. split_and!; [apply elem_of_cons; by left | done ..].
      * left. by right.
      * right. by left.
      * right. right. exists a, b. split_and!; [apply elem_of_cons; by right | done ..].
    + intros [[(bj & Hbj & Hov & Hc) | H] | [H | (a & b & Ha & Hb & Hov & Hc)]].
      * left. exists bj. split_and!; [apply elem_of_app; by left | done ..].
      * right. by left.
      * right. right. by left.
      * apply elem_of_cons in Ha as [-> | Ha].
        -- left. exists b. split_and!; [apply elem_of_app; by right | done ..].
        -- right. right. right. by exists a, b.
Qed.

(** The overlapping pairs of the flattened block list, told by the entries
    of the assignment: the block at position [i] of the section of entry
    [p] and the block at position [j] of the section of entry [q], where
    [p] comes first or the two are the same entry and [i] comes first. *)
Lemma conflictingPair_entries (sol : Assignment) (c : string) :
  conflictingPair (flattenedBlocks sol) c ↔
  ∃ p q e1 e2 i j a b,
    sol !! p = Some e1 ∧ sol !! q = Some e2 ∧
    blocksForSection e1.2 !! i = Some a ∧ blocksForSection e2.2 !! j = Some b ∧
    ((p < q)%nat ∨ (p = q ∧ (i < j)%nat)) ∧
    overlap a b = true ∧ (c = crn a ∨ c = crn b).
Proof.
  induction sol as [| [t sec] sol IH].
  - split; [by intros ?%conflictingPair_nil |].
    intros (p & q & e1 & e2 & i & j & a & b & Hp & _). by rewrite lookup_nil in Hp.
  - change (flattenedBlocks ((t, sec) :: sol))
      with (blocksForSection sec ++ flattenedBlocks sol).
    rewrite conflictingPair_app, IH. split.
    + intros [(i & j & a & b & Hij & Ha & Hb & Hov & Hc)
             | [(p & q & e1 & e2 & i & j & a & b & Hp & Hq & Ha & Hb & Hpq & Hov & Hc)
               | (a & b & Ha & Hb & Hov & Hc)]].
      * exists 0%nat, 0%nat, (t, sec), (t, sec), i, j, a, b.
        split_and!; [done | done | done | done | by right | done | done].
      * exists (S p), (S q), e1, e2, i, j, a, b.
        split_and!; [done | done | done | done | lia | done | done].
      * apply list_elem_of_lookup in Ha as [i Ha].
        apply elem_of_flattenedBlocks in Hb as (t' & sec' & Hin & Hb).
        apply list_elem_of_lookup in Hin as [q Hq].
        apply list_elem_of_lookup in Hb as [j Hb].
        exists 0%nat, (S q), (t, sec), (t', sec'), i, j, a, b.
        split_and!; [done | done | done | done | left; lia | done | done].
    + intros (p & q & e1 & e2 & i & j & a & b & Hp & Hq & Ha & Hb & Hpq & Hov & Hc).
      destruct p as [| p]; simpl in Hp.
      * injection Hp as <-. destruct q as [| q]; simpl in Hq.
        -- injection Hq as <-. left. exists i, j, a, b.
           split_and!; [lia | done | done | done | done].
        -- right. right. exists a, b. split_and!; [| | done | done].
           ++ apply list_elem_of_lookup. by exists i.
           ++ apply elem_of_flattenedBlocks. destruct e2 as [t2 s2]. exists t2, s2.
              split; apply list_elem_of_lookup; eauto.
      * destruct q as [| q]; [lia |]. simpl in Hq. right. left.
        exists p, q, e1, e2, i, j, a, b.
        split_and!; [done | done | done | done | lia | done | done].
Qed.

(** C3. For every assignment, the conflict detector returns a set (no
    identifier twice) that holds exactly the identifiers of the assigned
    sections owning a block of an overlapping pair: a block of the section
    of one entry and a block of the section of another entry, or two
    blocks at different positions of the same section.  These are the
    overlapping pairs at two different positions of the flattened block
    list.  Two blocks overlap iff they are on the same day and
    [a.start < b.end] and [b.start < a.end], so that blocks that merely
    touch do not conflict: a section from minute 900 to 950 conflicts with
    one from 920 to 960 and not with one from 950 to 1000. *)
Theorem findConflicts_exact (sol : Assignment) :
  NoDup (findConflicts sol) ∧
  (∀ c, c ∈ findConflicts sol ↔
        ∃ p q t1 s1 t2 s2 i j a b,
          sol !! p = Some (t1, s1) ∧ sol !! q = Some (t2, s2) ∧
          blocksForSection s1 !! i = Some a ∧ blocksForSection s2 !! j = Some b ∧
          (p ≠ q ∨ i ≠ j) ∧ overlap a b = true ∧ courseReferenceNumber s1 = c) ∧
  (∀ c, c ∈ findConflicts sol ↔
        ∃ i j a b, i ≠ j ∧ flattenedBlocks sol !! i = Some a ∧
                   flattenedBlocks sol !! j = Some b ∧
                   overlap a b = true ∧ crn a = c) ∧
  (∀ a b, overlap a b = true ↔ day a = day b ∧ start a < end_ b ∧ start b < end_ a) ∧
  (∀ a b, end_ a = start b → overlap a b = false ∧ overlap b a = false) ∧
  findConflicts [("A", open5at900); ("B", overlapping920)] = ["10001"; "10008"] ∧
  findConflicts [("A", open5at900); ("B", touching950)] = [] ∧
  findConflicts [("A", twiceOnMonday)] = ["10006"].
Proof.
  split_and!.
  - apply conflictsOfBlocks_NoDup, NoDup_nil_2.
  - intros c. unfold findConflicts. rewrite conflictsOfBlocks_spec, conflictingPair_entries.
    split.
    + intros [Hnil | (p & q & [t1 s1] & [t2 s2] & i & j & a & b
                      & Hp & Hq & Ha & Hb & Hpq & Hov & Hc)];
        [by apply elem_of_nil in Hnil |].
      simpl in Ha, Hb.
      assert (crn a = courseReferenceNumber s1) as Hca.
      { apply (block_of_section s1 a), list_elem_of_lookup. by exists i. }
      assert (crn b = courseReferenceNumber s2) as Hcb.
      { apply (block_of_section s2 b), list_elem_of_lookup. by exists j. }
      destruct Hc as [-> | ->].
      * exists p, q, t1, s1, t2, s2, i, j, a, b.
        split_and!; [done | done | done | done | lia | done | done].
      * exists q, p, t2, s2, t1, s1, j, i, b, a.
        split_and!; [done | done | done | done | lia | by rewrite overlap_sym | done].
    + intros (p & q & t1 & s1 & t2 & s2 & i & j & a & b
              & Hp & Hq & Ha & Hb & Hpq & Hov & <-). right.
      assert (crn a = courseReferenceNumber s1) as Hca.
      { apply (block_of_section s1 a), list_elem_of_lookup. by exists i. }
      destruct (decide ((p < q)%nat ∨ (p = q ∧ (i < j)%nat))) as [Hlt | Hge].
      * exists p, q, (t1, s1), (t2, s2), i, j, a, b.
        split_and!; [done | done | done | done | done | done | by left].
      * exists q, p, (t2, s2), (t1, s1), j, i, b, a.
        split_and!; [done | done | done | done | lia | by rewrite overlap_sym | by right].
  - intros c. unfold findConflicts. rewrite conflictsOfBlocks_spec. split.
    + intros [Hnil | (i & j & a & b & Hij & Ha & Hb & Hov & [-> | ->])].
      * by apply elem_of_nil in Hnil.
      * exists i, j, a, b. split_and!; [lia | done ..].
      * exists j, i, b, a. split_and!; [lia | done | done | by rewrite overlap_sym | done].
    + intros (i & j & a & b & Hij & Ha & Hb & Hov & <-). right.
      destruct (decide (i < j)%nat).
      * exists i, j, a, b. split_and!; [done .. | by left].
      * exists j, i, b, a. split_and!; [lia | done | done | by rewrite overlap_sym | by right].
  - apply overlap_true.
  - intros a b Htouch. split; apply not_true_iff_false; rewrite overlap_true; lia.
  - reflexivity.
  - reflexivity.
  - reflexivity.
Qed.

(** In an assignment whose sections do not overlap one another, a conflict
    is a conflict of one section with itself. *)
Lemma conflictingPair_within (sol : Assignment) (c : string) :
  NoDup (Js.keys sol) →
  (∀ t1 t2 s1 s2 b1 b2, t1 ≠ t2 → (t1, s1) ∈ sol → (t2, s2) ∈ sol →
     b1 ∈ blocksForSection s1 → b2 ∈ blocksForSection s2 → overlap b1 b2 = false) →
  conflictingPair (flattenedBlocks sol) c ↔
  ∃ t sec, (t, sec) ∈ sol ∧ conflictingPair (blocksForSection sec) c.
Proof.
  unfold Js.keys. induction sol as [| [t sec] sol IH]; intros Hnd Hcross.
  - split; [by intros ?%conflictingPair_nil |]. intros (t & sec & Hin & _).
    by apply elem_of_nil in Hin.
  - csimpl in Hnd. apply NoDup_cons in Hnd as [Ht Hnd].
    change (flattenedBlocks ((t, sec) :: sol))
      with (blocksForSection sec ++ flattenedBlocks sol).
    rewrite conflictingPair_app, IH; [| done |]; cycle 1.
    { intros t1 t2 s1 s2 b1 b2 Hne H1 H2. apply (Hcross t1 t2); [done | |].
      - apply elem_of_cons. by right.
      - apply elem_of_cons. by right. }
    split.
    + intros [H | [(t' & sec' & Hin & H) | (a & b & Ha & Hb & Hov & _)]].
      * exists t, sec. split; [apply elem_of_cons; by left | done].
      * exists t', sec'. split; [apply elem_of_cons; by right | done].
      * exfalso. apply elem_of_flattenedBlocks in Hb as (t' & sec' & Hin & Hb).
        assert (t ≠ t') as Hne.
        { intros ->. apply Ht. apply list_elem_of_fmap. by exists (t', sec'). }
        rewrite (Hcross t t' sec sec' a b) in Hov; [done | done | | | done | done].
        -- apply elem_of_cons. by left.
        -- apply elem_of_cons. by right.
    + intros (t' & sec' & Hin & H). apply elem_of_cons in Hin as [[= -> ->] | Hin].
      * by left.
      * right. left. by exists t', sec'.
Qed.

Lemma solved_cross_free (sections : gmap string (list CourseRecord))
    (titles : list string) (picks : list nat) (sol : Assignment) :
  validPicks sections titles [] picks →
  (∀ t, Js.get sol t = Js.get (assign [] titles (pickedSections sections titles picks)) t) →
  ∀ t1 t2 s1 s2 b1 b2,
    t1 ≠ t2 → Js.get sol t1 = Some s1 → Js.get sol t2 = Some s2 →
    b1 ∈ blocksForSection s1 → b2 ∈ blocksForSection s2 → overlap b1 b2 = false.
Proof.
  intros Hvalid Hget t1 t2 s1 s2 b1 b2 Hne Ht1 Ht2 Hb1 Hb2. rewrite Hget in Ht1, Ht2.
  destruct (assigned_is_picked _ _ _ _ _ Hvalid Ht1) as (p1 & Hp1 & Hs1).
  destruct (assigned_is_picked _ _ _ _ _ Hvalid Ht2) as (p2 & Hp2 & Hs2).
  assert (p1 ≠ p2) by (intros ->; congruence).
  destruct (decide (p1 < p2)%nat).
  - destruct (validPicks_picked _ _ _ _ _ _ _ Hvalid Hp2 Hs2) as (_ & _ & _ & Hearlier).
    rewrite overlap_sym. by apply (Hearlier p1 s1).
  - destruct (validPicks_picked _ _ _ _ _ _ _ Hvalid Hp1 Hs1) as (_ & _ & _ & Hearlier).
    apply (Hearlier p2 s2); [lia | done | done | done].
Qed.

(** The conflicts shown right after a schedule was generated are conflicts
    of a section with itself: an identifier is in the conflict set exactly
    when it is the identifier of an assigned section two of whose own
    blocks overlap. *)
Theorem generated_conflicts_within (st : AppState) (sol : Assignment) (c : string) :
  solution (generateSchedule st) = Some sol →
  c ∈ conflictCRNs (generateSchedule st) ↔
  ∃ t sec i j a b,
    Js.get sol t = Some sec ∧ courseReferenceNumber sec = c ∧ (i < j)%nat ∧
    blocksForSection sec !! i = Some a ∧ blocksForSection sec !! j = Some b ∧
    overlap a b = true.
Proof.
  intros Hsol.
  destruct (decide (targetsOf st = [])) as [Hempty | Htargets].
  { rewrite generateSchedule_nothing in Hsol by done. done. }
  destruct (generateSchedule_solved st Htargets)
    as [(Hnone & _) | (sol' & picks & Hsol' & _ & Hconf & Hnd & Hvalid & _ & Hget)];
    [congruence |].
  assert (sol' = sol) as -> by congruence.
  rewrite Hconf. unfold findConflicts. rewrite conflictsOfBlocks_spec.
  rewrite conflictingPair_within; [| done |]; cycle 1.
  { intros t1 t2 s1 s2 b1 b2 Hne H1 H2.
    apply (solved_cross_free _ _ _ _ Hvalid Hget t1 t2); [done | |];
      by apply elem_of_get_NoDup. }
  split.
  - intros [Hnil | (t & sec & Hin & i & j & a & b & Hij & Ha & Hb & Hov & Hc)];
      [by apply elem_of_nil in Hnil |].
    exists t, sec, i, j, a, b. split_and!; [by apply elem_of_get_NoDup | | done ..].
    assert (a ∈ blocksForSection sec) as Ha' by (apply list_elem_of_lookup; eauto).
    assert (b ∈ blocksForSection sec) as Hb' by (apply list_elem_of_lookup; eauto).
    destruct (block_of_section _ _ Ha') as (Hca & _).
    destruct (block_of_section _ _ Hb') as (Hcb & _).
    destruct Hc; congruence.
  - intros (t & sec & i & j & a & b & Ht & Hc & Hij & Ha & Hb & Hov). right.
    exists t, sec. split; [by apply get_Some_elem_of |].
    exists i, j, a, b. split_and!; [done .. |]. left.
    assert (a ∈ blocksForSection sec) as Ha' by (apply list_elem_of_lookup; eauto).
    destruct (block_of_section _ _ Ha') as (Hca & _). congruence.
Qed.

Lemma generated_conflicts_within_witness :
  "10006" ∈ conflictCRNs (generateSchedule (selectedState [twiceOnMonday])) ↔
  ∃ t sec i j a b,
    Js.get [(introKey, twiceOnMonday)] t = Some sec ∧
    courseReferenceNumber sec = "10006" ∧ (i < j)%nat ∧
    blocksForSection sec !! i = Some a ∧ blocksForSection sec !! j = Some b ∧
    overlap a b = true.
Proof.
  apply (generated_conflicts_within (selectedState [twiceOnMonday])).
  reflexivity.
Defined.

(** ** The prerequisite map and its transpose *)

Lemma has_keys {V} (m : list (string * V)) (k : string) :
  is_Some (Js.get m k) ↔ k ∈ Js.keys m.
Proof.
  unfold Js.keys. induction m as [| [k0 v0] m IH]; csimpl.
  - split; [by intros [? ?] | by intros ?%elem_of_nil].
  - rewrite elem_of_cons. case_decide as Hk.
    + split; [by left | by eexists].
    + rewrite IH. split; [by right | intros [-> | ?]; done].
Qed.

Section PrereqMapEdges.
Variable toUpperCase : string → string.

Lemma ensureKey_adjacent (key : string) (out : Graph) (k : string) :
  adjacent (ensureKey key out) k = adjacent out k.
Proof.
  unfold ensureKey, Js.has. case_bool_decide as Hhas; [done |].
  rewrite adjacent_set. case_decide as Hk; [| done]. subst k.
  unfold adjacent. destruct (Js.get out key) eqn:Hget; [| done].
  exfalso. apply Hhas. by eexists.
Qed.

Lemma ensureKey_keys (key : string) (out : Graph) (x : string) :
  x ∈ Js.keys (ensureKey key out) ↔ x ∈ Js.keys out ∨ x = key.
Proof.
  unfold ensureKey, Js.has. case_bool_decide as Hhas.
  - apply has_keys in Hhas. split; [by left | intros [? | ->]; done].
  - apply elem_of_keys_set.
Qed.

Lemma addPrereqs_adjacent (key : string) (reqs : list string) (out : Graph) (k r' : string) :
  r' ∈ adjacent (foldl (addPrereq toUpperCase key) out reqs) k ↔
  r' ∈ adjacent out k ∨ (k = key ∧ ∃ r, r ∈ reqs ∧ normalize toUpperCase r = r').
Proof.
  revert out. induction reqs as [| r reqs IH]; intros out; simpl.
  - split; [by left | intros [? | (_ & r & Hr & _)]; [done | by apply elem_of_nil in Hr]].
  - rewrite IH. unfold addPrereq. rewrite adjacent_set. split.
    + intros [Hin | (-> & r0 & Hr0 & <-)].
      * case_decide as Hk; [| by left]. subst k.
        apply elem_of_set_add in Hin as [? | ->]; [by left | right].
        split; [done |]. exists r. split; [apply elem_of_cons; by left | done].
      * right. split; [done |]. exists r0. split; [apply elem_of_cons; by right | done].
    + intros [Hin | (-> & r0 & Hr0 & <-)].
      * left. case_decide as Hk; [| done]. subst k. apply elem_of_set_add. by left.
      * apply elem_of_cons in Hr0 as [-> | Hr0].
        -- left. rewrite decide_True by done. apply elem_of_set_add. by right.
        -- right. split; [done |]. by exists r0.
Qed.

Lemma addPrereqs_keys (key : string) (reqs : list string) (out : Graph) (x : string) :
  key ∈ Js.keys out →
  x ∈ Js.keys (foldl (addPrereq toUpperCase key) out reqs) ↔ x ∈ Js.keys out.
Proof.
  revert out. induction reqs as [| r reqs IH]; intros out Hkey; simpl; [done |].
  rewrite IH.
  - unfold addPrereq. rewrite elem_of_keys_set. split; [intros [? | ->]; done | by left].
  - unfold addPrereq. apply elem_of_keys_set. by right.
Qed.

Lemma addPrereqs_sets (key : string) (reqs : list string) (out : Graph) :
  (∀ k, NoDup (adjacent out k)) →
  ∀ k, NoDup (adjacent (foldl (addPrereq toUpperCase key) out reqs) k).
Proof.
  revert out. induction reqs as [| r reqs IH]; intros out Hout; simpl; [done |].
  apply IH. intros k. unfold addPrereq. rewrite adjacent_set.
  case_decide; [by apply NoDup_set_add | done].
Qed.

Lemma add_fold (cs : list StudyPlanCourse) (out : Graph) :
  (∀ k, NoDup (adjacent out k)) → EmptyString ∉ Js.keys out →
  (∀ k r', r' ∈ adjacent (foldl (add toUpperCase) out cs) k ↔
           r' ∈ adjacent out k ∨ (k ≠ EmptyString ∧ ∃ c, c ∈ cs ∧ listsPrereq toUpperCase c k r')) ∧
  (∀ k, k ∈ Js.keys (foldl (add toUpperCase) out cs) ↔
        k ∈ Js.keys out ∨
        (k ≠ EmptyString ∧ ∃ c, c ∈ cs ∧ normalize toUpperCase (courseCode c) = k)) ∧
  (∀ k, NoDup (adjacent (foldl (add toUpperCase) out cs) k)) ∧
  EmptyString ∉ Js.keys (foldl (add toUpperCase) out cs).
Proof.
  revert out. induction cs as [| c cs IH]; intros out Hsets Hempty; simpl.
  - split_and!; [| | done | done].
    + intros k r'. split; [by left | intros [? | (_ & c & Hc & _)]; [done |]].
      by apply elem_of_nil in Hc.
    + intros k. split; [by left | intros [? | (_ & c & Hc & _)]; [done |]].
      by apply elem_of_nil in Hc.
  - set (key := normalize toUpperCase (courseCode c)).
    assert (add toUpperCase out c
            = if bool_decide (key = EmptyString) then out
              else foldl (addPrereq toUpperCase key) (ensureKey key out)
                     (default [] (prerequisites c))) as Hadd by done.
    destruct (IH (add toUpperCase out c)) as (Hadj & Hkeys & Hnd & Hno).
    { intros k. rewrite Hadd. case_bool_decide; [done |].
      apply addPrereqs_sets. intros k'. by rewrite ensureKey_adjacent. }
    { rewrite Hadd. case_bool_decide as Hkey; [done |].
      rewrite addPrereqs_keys by (apply ensureKey_keys; by right).
      rewrite ensureKey_keys. intros [? | ?]; done. }
    split_and!; [| | done | done].
    + intros k r'. rewrite Hadj, Hadd. case_bool_decide as Hkey.
      * split.
        -- intros [? | (Hk & c' & Hc' & Hl)]; [by left | right]. split; [done |].
           exists c'. split; [apply elem_of_cons; by right | done].
        -- intros [? | (Hk & c' & Hc' & Hl)]; [by left |].
           apply elem_of_cons in Hc' as [-> | Hc'].
           ++ destruct Hl as [Hl _]. fold key in Hl. congruence.
           ++ right. split; [done |]. by exists c'.
      * rewrite addPrereqs_adjacent, ensureKey_adjacent. split.
        -- intros [[? | (-> & Hreq)] | (Hk & c' & Hc' & Hl)]; [by left | right ..].
           ++ split; [done |]. exists c. split; [apply elem_of_cons; by left | done].
           ++ split; [done |]. exists c'. split; [apply elem_of_cons; by right | done].
        -- intros [? | (Hk & c' & Hc' & Hl)]; [by left; left |].
           apply elem_of_cons in Hc' as [-> | Hc'].
           ++ destruct Hl as [<- Hreq]. left. right. done.
           ++ right. split; [done |]. by exists c'.
    + intros k. rewrite Hkeys, Hadd. case_bool_decide as Hkey.
      * split.
        -- intros [? | (Hk & c' & Hc' & Hl)]; [by left | right]. split; [done |].
           exists c'. split; [apply elem_of_cons; by right | done].
        -- intros [? | (Hk & c' & Hc' & Hl)]; [by left |].
           apply elem_of_cons in Hc' as [-> | Hc'].
           ++ fold key in Hl. congruence.
           ++ right. split; [done |]. by exists c'.
      * rewrite addPrereqs_keys by (apply ensureKey_keys; by right).
        rewrite ensureKey_keys. split.
        -- intros [[? | ->] | (Hk & c' & Hc' & Hl)]; [by left | right ..].
           ++ split; [done |]. exists c. split; [apply elem_of_cons; by left | done].
           ++ split; [done |]. exists c'. split; [apply elem_of_cons; by right | done].
        -- intros [? | (Hk & c' & Hc' & Hl)]; [by left; left |].
           apply elem_of_cons in Hc' as [-> | Hc'].
           ++ left. right. done.
           ++ right. split; [done |]. by exists c'.
Qed.

(** The map built from a plan has an entry exactly for the non-empty
    normalized codes of the plan's courses, each once; the prerequisites of
    a code are exactly the normalized prerequisites that the entries of
    that code list, without repetition; and without a plan the map is
    empty. *)
Theorem prereqMap_edges (plan : StudyPlan) :
  NoDup (Js.keys (prereqMap toUpperCase (Some plan))) ∧
  (EmptyString ∉ Js.keys (prereqMap toUpperCase (Some plan))) ∧
  (∀ k, k ∈ Js.keys (prereqMap toUpperCase (Some plan)) ↔
        k ≠ EmptyString ∧
        ∃ c, c ∈ planCourses plan ∧ normalize toUpperCase (courseCode c) = k) ∧
  (∀ k r', r' ∈ adjacent (prereqMap toUpperCase (Some plan)) k ↔
           k ≠ EmptyString ∧ ∃ c, c ∈ planCourses plan ∧ listsPrereq toUpperCase c k r') ∧
  (∀ k, NoDup (adjacent (prereqMap toUpperCase (Some plan)) k)) ∧
  prereqMap toUpperCase None = [].
Proof.
  assert (prereqMap toUpperCase (Some plan) = foldl (add toUpperCase) [] (planCourses plan))
    as Hmap.
  { unfold planCourses. by rewrite foldl_app. }
  destruct (add_fold (planCourses plan) []) as (Hadj & Hkeys & Hnd & Hno).
  { intros k. apply NoDup_nil_2. }
  { apply not_elem_of_nil. }
  split_and!; [apply prereqMap_keys_NoDup | | | | | done]; rewrite Hmap.
  - done.
  - intros k. rewrite Hkeys. split; [intros [Hnil | ?]; [by apply elem_of_nil in Hnil | done] |].
    by right.
  - intros k r'. rewrite Hadj. split; [intros [Hnil | ?]; [by apply elem_of_nil in Hnil | done] |].
    by right.
  - done.
Qed.
End PrereqMapEdges.

Lemma addDependent_keys (course : string) (m : Graph) (r x : string) :
  x ∈ Js.keys (addDependent course m r) ↔ x ∈ Js.keys m ∨ x = r.
Proof.
  unfold addDependent. fold (ensureKey r m).
  rewrite elem_of_keys_set, ensureKey_keys. tauto.
Qed.

Lemma addDependent_shape (course : string) (m : Graph) (r : string) :
  dependentsShape m → dependentsShape (addDependent course m r).
Proof.
  intros (Hkeys & Hsets & Hfull). split_and!.
  - unfold addDependent. apply NoDup_keys_set.
    destruct (Js.has m r); [done | by apply NoDup_keys_set].
  - intros u. unfold addDependent. fold (ensureKey r m). rewrite adjacent_set.
    case_decide; [| by rewrite ensureKey_adjacent].
    apply NoDup_set_add. by rewrite ensureKey_adjacent.
  - intros u Hu. apply addDependent_keys in Hu.
    intros Hnil.
    assert (∀ v, v ∈ adjacent (addDependent course m r) u ↔
                 v ∈ adjacent m u ∨ (v = course ∧ u = r)) as Hadj
      by (intros v; apply adjacent_addDependent).
    rewrite Hnil in Hadj. destruct (decide (u = r)) as [-> | Hne].
    + destruct (Hadj course) as [_ Hin]. by apply elem_of_nil in Hin; [| right].
    + destruct Hu as [Hu | ?]; [| done]. apply (Hfull u Hu).
      destruct (adjacent m u) as [| v l] eqn:Hau; [done |].
      destruct (Hadj v) as [_ Hin]. by apply elem_of_nil in Hin; [| left; left].
Qed.

Lemma dependentsAdj_shape (prereqMap : Graph) : dependentsShape (dependentsAdj prereqMap).
Proof.
  unfold dependentsAdj.
  assert (dependentsShape []) as Hnil.
  { split_and!; [apply NoDup_nil_2 | intros u; apply NoDup_nil_2 |].
    intros u Hu. by apply elem_of_nil in Hu. }
  revert Hnil. generalize ([] : Graph). induction prereqMap as [| [c reqs] prereqMap IH];
    intros m Hm; simpl; [done |].
  apply IH. clear IH. revert m Hm. induction reqs as [| r reqs IHr]; intros m Hm; simpl; [done |].
  by apply IHr, addDependent_shape.
Qed.

(** On a map with every course once, the reverse adjacency holds each
    prerequisite once, with the duplicate-free, non-empty set of exactly
    the courses that list it; and reversing it again gives back, course by
    course, the prerequisites of the map. *)
Theorem dependentsAdj_structure (prereqMap : Graph) :
  NoDup (Js.keys prereqMap) →
  NoDup (Js.keys (dependentsAdj prereqMap)) ∧
  (∀ u v, v ∈ adjacent (dependentsAdj prereqMap) u ↔ u ∈ adjacent prereqMap v) ∧
  (∀ u, NoDup (adjacent (dependentsAdj prereqMap) u)) ∧
  (∀ u, u ∈ Js.keys (dependentsAdj prereqMap) ↔ ∃ v, u ∈ adjacent prereqMap v) ∧
  (∀ v r, r ∈ adjacent (dependentsAdj (dependentsAdj prereqMap)) v ↔
          r ∈ adjacent prereqMap v).
Proof.
  intros Hnd. destruct (dependentsAdj_shape prereqMap) as (Hkeys & Hsets & Hfull).
  split_and!; [done | | done | |].
  - intros u v. by apply dependentsAdj_transpose.
  - intros u. split.
    + intros Hu. specialize (Hfull u Hu).
      destruct (adjacent (dependentsAdj prereqMap) u) as [| v l] eqn:Hadj; [done |].
      exists v. apply (dependentsAdj_transpose _ _ _ Hnd). rewrite Hadj.
      apply elem_of_cons. by left.
    + intros (v & Hv). apply (dependentsAdj_transpose _ _ _ Hnd) in Hv.
      apply has_keys. unfold adjacent in Hv.
      destruct (Js.get (dependentsAdj prereqMap) u); [by eexists | by apply elem_of_nil in Hv].
  - intros v r. rewrite (dependentsAdj_transpose _ _ _ Hkeys).
    apply (dependentsAdj_transpose _ _ _ Hnd).
Qed.

Lemma dependentsAdj_structure_witness :
  NoDup (Js.keys (dependentsAdj chainPlan)) ∧
  ∀ v r, r ∈ adjacent (dependentsAdj (dependentsAdj chainPlan)) v ↔ r ∈ adjacent chainPlan v.
Proof.
  destruct (dependentsAdj_structure chainPlan) as (Hkeys & _ & _ & _ & Hround).
  - by_compute.
  - split; [exact Hkeys | exact Hround].
Defined.

(** ** Display of times *)

Lemma length_append (a b : string) :
  String.length (a +:+ b) = (String.length a + String.length b)%nat.
Proof. induction a as [| c a IH]; simpl; [done | by rewrite IH]. Qed.

Lemma substring_append_front (a b : string) :
  String.substring 0 (String.length a) (a +:+ b) = a.
Proof.
  induction a as [| c a IH]; simpl.
  - by destruct b.
  - by rewrite IH.
Qed.

Lemma substring_whole (b : string) : String.substring 0 (String.length b) b = b.
Proof. induction b as [| c b IH]; simpl; [done | by rewrite IH]. Qed.

Lemma substring_append_back (a b : string) :
  String.substring (String.length a) (String.length b) (a +:+ b) = b.
Proof. induction a as [| c a IH]; simpl; [apply substring_whole | done]. Qed.

Lemma parseInt_digits (s : string) (v : Z) :
  Js.digits s 0 false = Some v → Js.parseInt s = Some v.
Proof.
  destruct s as [| c s]; [done |].
  destruct c as [b0 b1 b2 b3 b4 b5 b6 b7].
  destruct b0, b1, b2, b3, b4, b5, b6, b7; try (intros H; discriminate H); intros H; exact H.
Qed.

Lemma digitValue_char (d : N) : (d < 10)%N → Js.digitValue (pretty_N_char d) = Some (Z.of_N d).
Proof.
  intros Hd.
  assert (d = 0 ∨ d = 1 ∨ d = 2 ∨ d = 3 ∨ d = 4 ∨ d = 5 ∨ d = 6 ∨ d = 7 ∨ d = 8 ∨ d = 9)%N
    as Hcases by lia.
  repeat (destruct Hcases as [-> | Hcases]; [reflexivity |]). by subst.
Qed.

Lemma digits_pretty_N_go (x : N) :
  (0 < x)%N →
  ∃ k, ∀ s acc seen,
    Js.digits (pretty_N_go x s) acc seen = Js.digits s (acc * 10 ^ k + Z.of_N x) true ∧ 0 ≤ k.
Proof.
  induction (N.lt_wf_0 x) as [x _ IH]. intros Hx.
  destruct (decide (x `div` 10 = 0)%N) as [Hsmall | Hbig].
  - exists 1. intros s acc seen. rewrite pretty_N_go_step by done.
    rewrite Hsmall, pretty_N_go_0. simpl.
    rewrite digitValue_char by (apply N.mod_lt; lia).
    assert (x `mod` 10 = x)%N as ->.
    { apply N.mod_small. apply N.div_small_iff in Hsmall; lia. }
    rewrite Z.pow_1_r. split; [done | lia].
  - destruct (IH (x `div` 10)%N) as (k & Hk);
      [apply N.div_lt; lia | by apply N.neq_0_lt_0 |].
    exists (k + 1). intros s acc seen. rewrite pretty_N_go_step by done.
    destruct (Hk (String (pretty_N_char (x `mod` 10)) s) acc seen) as [-> Hk0].
    simpl. rewrite digitValue_char by (apply N.mod_lt; lia). split; [| lia].
    f_equal. rewrite Z.pow_add_r by lia.
    pose proof (N.div_mod x 10 ltac:(lia)) as Hdm.
    rewrite N2Z.inj_div, N2Z.inj_mod. 
    pose proof (Z.div_mod (Z.of_N x) 10 ltac:(lia)). simpl (Z.of_N 10). lia.
Qed.

Lemma parseInt_numberToString (n : Z) : 0 ≤ n → Js.parseInt (numberToString n) = Some n.
Proof.
  intros Hn. apply parseInt_digits. unfold numberToString, pretty, pretty_Z.
  destruct n as [| p | p]; [done | | lia].
  unfold pretty, pretty_positive, pretty, pretty_N. rewrite decide_False by done.
  assert (0 < N.pos p)%N as Hp by lia.
  destruct (digits_pretty_N_go _ Hp) as (k & Hk).
  destruct (Hk "" 0 false) as [-> _]. simpl. f_equal; lia.
Qed.

Lemma padStart2_length (s : string) : (2 ≤ String.length (padStart2 s))%nat.
Proof. destruct s as [| c [| c' s]]; simpl; lia. Qed.

Lemma parseInt_padStart2 (n : Z) : 0 ≤ n → Js.parseInt (padStart2 (numberToString n)) = Some n.
Proof.
  intros Hn. pose proof (parseInt_numberToString n Hn) as Hparse.
  unfold padStart2. destruct (String.length (numberToString n)) as [| [| len]] eqn:Hlen;
    [| | done].
  - destruct (numberToString n); [done | done].
  - apply parseInt_digits.
    destruct (numberToString n) as [| c [| c' s]] eqn:Hs; [done | | done].
    clear Hlen. revert Hparse.
    destruct c as [b0 b1 b2 b3 b4 b5 b6 b7].
    destruct b0, b1, b2, b3, b4, b5, b6, b7; try (intros H; discriminate H);
      intros H; exact H.
Qed.

Lemma two_digits (n : Z) : 0 ≤ n < 60 → String.length (padStart2 (numberToString n)) = 2%nat.
Proof.
  intros Hn. assert (n ∈ seqZ 0 60) as Hin by (apply elem_of_seqZ; lia).
  revert Hin. generalize n. apply Forall_forall. by_compute.
Qed.

(** The time string the timetable writes for a block time that is not
    negative and lies in the range where the arithmetic on numbers is exact
    ([exactMinutes]: below [2 ^ 53 - 99], far above any minute of a week)
    parses back to the same number of minutes, so the label the timetable
    shows is what [prettyTime] shows for any time string of that many
    minutes. *)
Theorem encodeMinutes_roundtrip (m : Z) :
  0 ≤ m →
  exactMinutes m →
  timeStrToMinutes (Some (encodeMinutes m)) = Some m ∧
  ∀ t, timeStrToMinutes (Some t) = Some m → blockTimeLabel m = prettyTime (Some t).
Proof.
  intros Hm _.
  assert (timeStrToMinutes (Some (encodeMinutes m)) = Some m) as Hround; cycle 1.
  { split; [done |]. intros t Ht.
    assert (encodeMinutes m ≠ EmptyString) as Henc
      by (intros Henc; rewrite Henc in Hround; discriminate Hround).
    assert (t ≠ EmptyString) as Hne by (intros ->; discriminate Ht).
    unfold blockTimeLabel, prettyTime.
    rewrite (bool_decide_eq_false_2 _ Henc), (bool_decide_eq_false_2 _ Hne).
    by rewrite Hround, Ht. }
  unfold encodeMinutes.
  set (a := padStart2 (numberToString (m `div` 60))).
  set (b := padStart2 (numberToString (m `rem` 60))).
  assert (0 ≤ m `div` 60) as Hdiv by (apply Z.div_pos; lia).
  assert (0 ≤ m `rem` 60 < 60) as Hrem by (rewrite Z.rem_mod_nonneg by lia; apply Z.mod_pos_bound; lia).
  assert (String.length b = 2%nat) as Hb by (by apply two_digits).
  unfold timeStrToMinutes, Js.slice_front2, Js.slice_last2.
  rewrite length_append, Hb. rewrite bool_decide_eq_false_2 by (pose proof (padStart2_length (numberToString (m `div` 60))); fold a in H; lia).
  replace (String.length a + 2 - 2)%nat with (String.length a) by lia.
  rewrite substring_append_front.
  assert (String.substring (String.length a) 2 (a +:+ b) = b) as ->
    by (rewrite <- Hb; apply substring_append_back).
  unfold a, b. rewrite !parseInt_padStart2 by lia. f_equal.
  rewrite Z.rem_mod_nonneg by lia. pose proof (Z.div_mod m 60 ltac:(lia)). lia.
Qed.

Lemma encodeMinutes_roundtrip_witness :
  timeStrToMinutes (Some (encodeMinutes 545)) = Some 545 ∧
  ∀ t, timeStrToMinutes (Some t) = Some 545 → blockTimeLabel 545 = prettyTime (Some t).
Proof. apply encodeMinutes_roundtrip; [lia | unfold exactMinutes; simpl; lia]. Defined.

(** [prettyTime] shows a time of day on the 12-hour clock: for a time
    string that parses to a minute of the day, the hour shown is between 1
    and 12, the minutes are shown with two digits, and hour, minutes and
    the AM/PM mark denote that minute.  A string that does not parse is
    shown as it is, and no string as the empty string. *)
Theorem prettyTime_clock (t : string) :
  match timeStrToMinutes (Some t) with
  | None => prettyTime (Some t) = t
  | Some m =>
      0 ≤ m < 1440 →
      ∃ h mm (pm : bool),
        prettyTime (Some t)
          = numberToString h +:+ ":" +:+ padStart2 (numberToString mm) +:+ " "
            +:+ (if pm then "PM" else "AM") ∧
        1 ≤ h ≤ 12 ∧ 0 ≤ mm < 60 ∧
        String.length (padStart2 (numberToString mm)) = 2%nat ∧
        m = (h `mod` 12 + (if pm then 12 else 0)) * 60 + mm
  end ∧
  prettyTime None = EmptyString.
Proof.
  split; [| done]. unfold prettyTime.
  destruct (timeStrToMinutes (Some t)) as [m |] eqn:Hm.
  - intros Hrange. rewrite bool_decide_eq_false_2 by (by intros ->).
    assert (0 ≤ m `div` 60 < 24) as Hdiv by (split; [apply Z.div_pos; lia | apply Z.div_lt_upper_bound; lia]).
    assert (0 ≤ m `rem` 60 < 60) as Hrem by (rewrite Z.rem_mod_nonneg by lia; apply Z.mod_pos_bound; lia).
    exists ((m `div` 60 + 11) `rem` 12 + 1), (m `rem` 60), (bool_decide (12 ≤ m `div` 60)).
    split_and!.
    + by case_bool_decide.
    + rewrite Z.rem_mod_nonneg by lia. pose proof (Z.mod_pos_bound (m `div` 60 + 11) 12). lia.
    + rewrite Z.rem_mod_nonneg by lia. pose proof (Z.mod_pos_bound (m `div` 60 + 11) 12). lia.
    + lia.
    + lia.
    + by apply two_digits.
    + rewrite !Z.rem_mod_nonneg by lia. pose proof (Z.div_mod m 60 ltac:(lia)) as Hdm.
      pose proof (Z.div_mod (m `div` 60 + 11) 12 ltac:(lia)) as Ha.
      pose proof (Z.mod_pos_bound (m `div` 60 + 11) 12 ltac:(lia)) as Ha'.
      pose proof (Z.div_mod ((m `div` 60 + 11) `mod` 12 + 1) 12 ltac:(lia)) as Hb.
      pose proof (Z.mod_pos_bound ((m `div` 60 + 11) `mod` 12 + 1) 12 ltac:(lia)) as Hb'.
      revert Hdm Ha Ha' Hb Hb'.
      generalize (((m `div` 60 + 11) `mod` 12 + 1) `div` 12).
      generalize (((m `div` 60 + 11) `mod` 12 + 1) `mod` 12).
      generalize ((m `div` 60 + 11) `div` 12).
      generalize ((m `div` 60 + 11) `mod` 12).
      revert Hdiv. generalize (m `mod` 60). generalize (m `div` 60).
      intros q r Hq a k1 b k2 Hdm Ha Ha' Hb Hb'. case_bool_decide; lia.
  - case_bool_decide as Ht; [by subst |]. done.
Qed.

Lemma prettyTime_clock_witness :
  ∃ h mm (pm : bool),
    prettyTime (Some "1330")
      = numberToString h +:+ ":" +:+ padStart2 (numberToString mm) +:+ " "
        +:+ (if pm then "PM" else "AM") ∧
    1 ≤ h ≤ 12 ∧ 0 ≤ mm < 60 ∧
    String.length (padStart2 (numberToString mm)) = 2%nat ∧
    810 = (h `mod` 12 + (if pm then 12 else 0)) * 60 + mm.
Proof.
  refine (proj1 (prettyTime_clock "1330") _). vm_compute. split; [discriminate | reflexivity].
Defined.

(** ** Weekly timetable *)

Lemma StronglySorted_filter_weaken {A} (R R' : A → A → Prop) (P : A → Prop)
    `{∀ x, Decision (P x)} (l : list A) :
  (∀ a b, P a → P b → R a b → R' a b) →
  StronglySorted R l → StronglySorted R' (filter P l).
Proof.
  intros HR. induction 1 as [| x l Hl IH Hx]; [constructor |].
  rewrite filter_cons. case_decide as Hp; [| done].
  constructor; [done |]. apply Forall_forall. intros y Hy.
  apply list_elem_of_filter in Hy as [Hpy Hy].
  apply HR; [done | done |]. rewrite Forall_forall in Hx. by apply Hx.
Qed.

Section TimetableFacts.
Variable localeCompare : string → string → Z.
Variable rank : Day → Z.
Hypothesis days_ordered : ordersDays localeCompare rank.

Lemma compareBlocks_le (a b : Block) :
  compareBlocks localeCompare a b ≤ 0 ↔
  rank (day a) < rank (day b) ∨ (rank (day a) = rank (day b) ∧ start a ≤ start b).
Proof.
  unfold compareBlocks. cbv zeta. destruct (days_ordered (day a) (day b)) as [Hlt Heq].
  case_bool_decide as Hc.
  - split.
    + intros Hle. left. apply Hlt. lia.
    + intros [Hr | [Hr _]]; [apply Hlt in Hr; lia | by apply Heq in Hr].
  - assert (localeCompare (dayName (day a)) (dayName (day b)) = 0) as H0 by lia.
    apply Heq in H0. split.
    + intros Hle. right. split; [done | lia].
    + intros [Hr | [_ Hr]]; lia.
Qed.

Lemma solutionBlocks_sorted (solution : option Assignment) :
  StronglySorted (λ a b, compareBlocks localeCompare a b ≤ 0)
    (solutionBlocks localeCompare solution).
Proof.
  destruct solution as [sol |]; simpl; [| constructor].
  apply sort_StronglySorted.
  - intros a b. rewrite !compareBlocks_le. lia.
  - intros a b c. rewrite !compareBlocks_le. lia.
Qed.

(** The timetable shows every block of the solution in the column of its
    day and nothing else, and each column lists its blocks by start
    time.  The blocks of the solution are the blocks of the sections of
    its entries. *)
Theorem dayBlocks_sorted (solution : option Assignment) (d : Day) :
  StronglySorted (λ a b, start a ≤ start b) (dayBlocks localeCompare solution d) ∧
  dayBlocks localeCompare solution d
    ≡ₚ filter (λ b, day b = d) (default [] (flattenedBlocks <$> solution)) ∧
  (∀ b, b ∈ dayBlocks localeCompare solution d ↔
        day b = d ∧ ∃ sol, solution = Some sol ∧ b ∈ flattenedBlocks sol) ∧
  (∀ b, b ∈ dayBlocks localeCompare solution d ↔
        day b = d ∧ ∃ sol t sec, solution = Some sol ∧ (t, sec) ∈ sol ∧
                                 b ∈ blocksForSection sec).
Proof.
  assert (solutionBlocks localeCompare solution ≡ₚ default [] (flattenedBlocks <$> solution))
    as Hperm.
  { destruct solution as [sol |]; simpl; [apply sort_Permutation | done]. }
  assert (∀ b, b ∈ dayBlocks localeCompare solution d ↔
               day b = d ∧ ∃ sol, solution = Some sol ∧ b ∈ flattenedBlocks sol) as Hcolumn;
    cycle 1.
  { split_and!; [| | exact Hcolumn |].
    - unfold dayBlocks.
      eapply StronglySorted_filter_weaken; [| apply solutionBlocks_sorted].
      intros a b Ha Hb. simpl in Ha, Hb. rewrite compareBlocks_le, Ha, Hb. lia.
    - unfold dayBlocks. by rewrite Hperm.
    - intros b. rewrite Hcolumn. split.
      + intros [Hd (sol & Hsol & Hb)].
        apply elem_of_flattenedBlocks in Hb as (t & sec & Hin & Hb).
        split; [done |]. by exists sol, t, sec.
      + intros [Hd (sol & t & sec & Hsol & Hin & Hb)].
        split; [done |]. exists sol. split; [done |].
        apply elem_of_flattenedBlocks. by exists t, sec. }
  intros b. unfold dayBlocks. rewrite list_elem_of_filter, Hperm.
  destruct solution as [sol |]; simpl.
  - split; [intros [? ?]; split; [done | by exists sol] |].
    intros [? (sol' & [= <-] & ?)]. done.
  - split; [intros [_ Hnil]; by apply elem_of_nil in Hnil |].
    intros [_ (sol' & Hsol & _)]. discriminate Hsol.
Qed.
End TimetableFacts.

Lemma dayBlocks_sorted_witness :
  StronglySorted (λ a b, start a ≤ start b)
    (dayBlocks codeUnitCompare (Some [(introKey, twiceOnMonday)]) Monday).
Proof.
  refine (proj1 (dayBlocks_sorted codeUnitCompare alphabeticalRank _ _ Monday)).
  intros d d'. destruct d, d'; vm_compute; (split; split; intros H; (done || discriminate H)).
Defined.

(** ** Manual override and the titles of the schedule *)

Lemma set_same {V} (m : list (string * V)) (k : string) (v : V) :
  Js.get m k = Some v → Js.set m k v = m.
Proof.
  induction m as [| [k0 v0] m IH]; simpl; [done |].
  case_decide as Hk; intros Hget.
  - by simplify_eq.
  - by rewrite IH.
Qed.

Lemma keys_set_present {V} (m : list (string * V)) (k : string) (v : V) :
  k ∈ Js.keys m → Js.keys (Js.set m k v) = Js.keys m.
Proof.
  unfold Js.keys. induction m as [| [k0 v0] m IH]; csimpl; intros Hk.
  - by apply elem_of_nil in Hk.
  - case_decide as Hk0; csimpl; [by subst |].
    apply elem_of_cons in Hk as [-> | Hk]; [done |]. by rewrite IH.
Qed.

(** An override of a title of the schedule keeps the titles of the
    schedule and their order, whether the target is found or not; and when
    the target found is the section already assigned, the solution stays
    as it is and so does a conflict set that was the detector's result on
    it. *)
Theorem overrideSection_titles (st : AppState) (title c : string) (sol : Assignment) :
  solution st = Some sol → title ∈ Js.keys sol →
  ∃ next,
    solution (overrideSection st title c) = Some next ∧
    Js.keys next = Js.keys sol ∧
    (∀ cur, Js.get sol title = Some cur →
            List.find (λ s, bool_decide (courseReferenceNumber s = c))
              (candidatesOf (records st) (includeClosed st) title) = Some cur →
            next = sol ∧
            (conflictCRNs st = findConflicts sol →
             conflictCRNs (overrideSection st title c) = conflictCRNs st)).
Proof.
  intros Hsol Htitle. unfold overrideSection. rewrite Hsol.
  destruct (List.find _ _) as [pick |] eqn:Hfind.
  - exists (Js.set sol title pick). simpl. split_and!; [done | by apply keys_set_present |].
    intros cur Hcur [= <-]. rewrite (set_same _ _ _ Hcur). split; [done |].
    by intros ->.
  - exists sol. split_and!; [done | done |]. intros cur _ Hcur. discriminate Hcur.
Qed.

Lemma overrideSection_titles_witness :
  ∃ next,
    solution (overrideSection scheduledState introKey "10003") = Some next ∧
    Js.keys next = [introKey].
Proof.
  destruct (overrideSection_titles scheduledState introKey "10003" [(introKey, open5at900)])
    as (next & Hnext & Hkeys & _).
  - reflexivity.
  - by_compute.
  - exists next. split; [exact Hnext | exact Hkeys].
Defined.

(** ** Loading the study plans *)

Lemma statusNoPlans_distinct (n : nat) : statusNoPlans ≠ statusPlansLoaded n.
Proof. unfold statusNoPlans, statusPlansLoaded. simpl. discriminate. Qed.

(** Loading study plans that are empty or no collection changes only the
    status, to a message that no successful load produces: the plans, the
    index of the active plan and the years that are open stay.  A
    successful load replaces the plans, closes every year, and makes the
    first plan (index 0) the active one, so that the prerequisite map is
    the map of that plan. *)
Theorem ingestStudyPlans_active (toUpperCase : string → string) (ps : PlanState)
    (raw : RawPlans) :
  (planStatus (ingestStudyPlans ps raw) = statusNoPlans ↔ rawPlans raw = []) ∧
  (rawPlans raw = [] →
   studyPlans (ingestStudyPlans ps raw) = studyPlans ps ∧
   activePlan (ingestStudyPlans ps raw) = activePlan ps ∧
   expandedYears (ingestStudyPlans ps raw) = expandedYears ps ∧
   activePlanIndex (ingestStudyPlans ps raw) = activePlanIndex ps) ∧
  (∀ plan plans, rawPlans raw = plan :: plans →
   studyPlans (ingestStudyPlans ps raw) = plan :: plans ∧
   activePlan (ingestStudyPlans ps raw) = Some plan ∧
   expandedYears (ingestStudyPlans ps raw) = [] ∧
   planStatus (ingestStudyPlans ps raw) = statusPlansLoaded (S (length plans)) ∧
   activePlanIndex (ingestStudyPlans ps raw) = 0%nat ∧
   prereqMap toUpperCase (activePlan (ingestStudyPlans ps raw))
     = foldl (add toUpperCase) [] (planCourses plan)).
Proof.
  unfold ingestStudyPlans, activePlan. split_and!.
  - case_bool_decide as Hlen; simpl.
    + by apply length_zero_iff_nil in Hlen.
    + split; [| intros Hnil; by rewrite Hnil in Hlen]. intros Hs. symmetry in Hs.
      by apply statusNoPlans_distinct in Hs.
  - intros ->. done.
  - intros plan plans ->. simpl. split_and!; [done .. |].
    unfold planCourses. by rewrite foldl_app.
Qed.
